(** * The xDS resource manager of ekglue (package [xds])

    A shallow embedding of [Manager] (the versioned resource store with its
    change notification) and of the per-client [Stream] loop, followed by the
    properties of the specification that were checked against it.

    Conventions of the embedding:
    - a Go [string] is a [string] (a sequence of bytes, [ascii]);
    - a Go [int] is a [Z] kept in the 64-bit range by [wrap_int];
    - a Go [map[string]T] is a [gmap string T]; where the source ranges over
      a map (Go leaves the order unspecified) the model follows
      [map_to_list];
    - a Go slice that is compared with [cmp.Diff] is an [option (list _)],
      [None] being the nil slice;
    - a function that can panic returns an [outcome];
    - logging, metrics and tracing spans are left out: they carry no state
      that the store or the stream read back. *)

From stdpp Require Import gmap strings list fin_maps pretty sorting.
From Stdlib Require Import ZArith Ascii.

Local Open Scope Z_scope.

(** ** Go values *)

(** gRPC status codes used by the stream. *)
Inductive Code := FailedPrecondition | InvalidArgument.

(** What [ctx.Err()] returns once the context is done. *)
Inductive ctx_error := Canceled | DeadlineExceeded.

(** Go [error] values, by the call that builds them. [fmt_Errorf format args
    wrapped] stands for [fmt.Errorf(format, args..., wrapped)] with a final
    [%w] verb. *)
Inductive error :=
  | errors_New (msg : string)
  | fmt_Errorf (format : string) (args : list string) (wrapped : error)
  | status_Error (c : Code) (msg : string)
  | context_Err (e : ctx_error).

(** The result of a call that may panic. *)
Inductive outcome (A : Type) :=
  | Return (a : A)
  | Panic (msg : string).
Arguments Return {A} a.
Arguments Panic {A} msg.

(** Go's [int] on a 64-bit platform. *)
Definition int_min : Z := - 2 ^ 63.
Definition int_max : Z := 2 ^ 63 - 1.
Definition wrap_int (z : Z) : Z := (z + 2 ^ 63) mod 2 ^ 64 - 2 ^ 63.

(** The elements of a slice; [len] and [range] do not tell nil from empty. *)
Definition elems {A} (s : option (list A)) : list A := default [] s.

(** ** Resources *)

(** A [Resource] is an interface value; the model records what the methods
    the manager calls on it answer. [GetName] and [GetClusterName] are [None]
    when the dynamic type does not have the method (the type assertion in
    [resourceName] fails). [Validate] is [None] for a nil error. [Marshal] is
    the result of [proto.Marshal]. *)
Record Resource := {
  MessageName : string;
  GetName : option string;
  GetClusterName : option string;
  Validate : option error;
  Marshal : error + string
}.

(** The panic message stands for the formatted one, which ends in the
    printed resource. *)
Definition resourceName (r : Resource) : outcome string :=
  match GetName r with
  | Some x => Return x
  | None =>
    match GetClusterName r with
    | Some x => Return x
    | None => Panic "unable to name resource"
    end
  end.

(** [any.Any] and [ptypes.MarshalAny]. *)
Record Any := { any_TypeUrl : string; any_Value : string }.

Definition MarshalAny (r : Resource) : error + Any :=
  match Marshal r with
  | inl err => inl err
  | inr b =>
    inr {| any_TypeUrl := "type.googleapis.com/" +:+ MessageName r;
           any_Value := b |}
  end.

(** ** Contexts, updates, sessions *)

(** Of a [context.Context] the manager uses [Done] and [Err] while it waits
    on busy sessions. [ctx_patience = Some k] says that [Done] fires once [k]
    of the blocked sends have gone through; [None] that it never fires. *)
Record Context := {
  ctx_id : nat;
  ctx_patience : option nat;
  ctx_Err : ctx_error
}.

Record update := {
  u_ctx : Context;
  u_resources : gset string
}.

(** A [session] is a channel of capacity one; the manager's [sessions] map is
    modelled with the channel's buffer as value. *)
Definition session := nat.

Record Acknowledgment := {
  Node : string;
  Version : string;
  Ack : bool
}.

(** ** The manager *)

Record Manager := {
  Name : string;
  VersionPrefix : string;
  Type_ : string;
  OnAck : bool;
  version : Z;
  resources : gmap string Resource;
  sessions : gmap session (option update)
}.

Definition set_version (v : Z) (m : Manager) : Manager :=
  {| Name := Name m; VersionPrefix := VersionPrefix m; Type_ := Type_ m;
     OnAck := OnAck m; version := v; resources := resources m;
     sessions := sessions m |}.

Definition set_resources (rs : gmap string Resource) (m : Manager) : Manager :=
  {| Name := Name m; VersionPrefix := VersionPrefix m; Type_ := Type_ m;
     OnAck := OnAck m; version := version m; resources := rs;
     sessions := sessions m |}.

Definition set_sessions (ss : gmap session (option update)) (m : Manager)
  : Manager :=
  {| Name := Name m; VersionPrefix := VersionPrefix m; Type_ := Type_ m;
     OnAck := OnAck m; version := version m; resources := resources m;
     sessions := ss |}.

Definition NewManager (name versionPrefix : string) (resource : Resource)
  : Manager :=
  {| Name := name; VersionPrefix := versionPrefix;
     Type_ := "type.googleapis.com/" +:+ MessageName resource;
     OnAck := false; version := 0; resources := ∅; sessions := ∅ |}.

(** [fmt.Sprintf("%s%d", m.VersionPrefix, m.version)] *)
Definition versionString (m : Manager) : string :=
  VersionPrefix m +:+ pretty (version m).

(** The loop shared by [snapshotAll] and [snapshot]: [result] and [names]
    are the two slices the source appends to. *)
Fixpoint snapshot_all_loop (entries : list (string * Resource))
    (result : list Any) (names : list string)
  : error + (list Any * list string) :=
  match entries with
  | [] => inr (result, names)
  | (n, r) :: entries' =>
    match MarshalAny r with
    | inl err => inl (fmt_Errorf "marshal resource %s to any: %w" [n] err)
    | inr a => snapshot_all_loop entries' (result ++ [a]) (names ++ [n])
    end
  end.

Definition snapshotAll (m : Manager)
  : error + (list Any * list string * string) :=
  match snapshot_all_loop (map_to_list (resources m)) [] [] with
  | inl err => inl err
  | inr (result, names) => inr (result, names, versionString m)
  end.

Fixpoint snapshot_loop (rs : gmap string Resource) (want : list string)
    (result : list Any) (names : list string)
  : error + (list Any * list string) :=
  match want with
  | [] => inr (result, names)
  | name :: want' =>
    match rs !! name with
    | None => snapshot_loop rs want' result names
    | Some r =>
      match MarshalAny r with
      | inl err => inl (fmt_Errorf "marshal resource %s to any: %w" [name] err)
      | inr a => snapshot_loop rs want' (result ++ [a]) (names ++ [name])
      end
    end
  end.

Definition snapshot (m : Manager) (want : list string)
  : error + (list Any * list string * string) :=
  match want with
  | [] => snapshotAll m
  | _ =>
    match snapshot_loop (resources m) want [] [] with
    | inl err => inl err
    | inr (result, names) => inr (result, names, versionString m)
    end
  end.

(** *** notify *)

(** What [notify] leaves behind: the manager, the update it built (if it got
    past the length check) and the error it returns. *)
Record notified := {
  n_manager : Manager;
  n_update : option update;
  n_err : option error
}.

(** First pass: a send without blocking succeeds on an empty buffer. *)
Definition try_send (u : update) (buf : option update) : option update :=
  match buf with
  | None => Some u
  | Some old => Some old
  end.

Definition blocked_sessions (ss : gmap session (option update))
  : list session :=
  (filter (λ p, is_Some p.2) (map_to_list ss)).*1.

(** Second pass: a blocking send goes through once the stream has taken the
    older update out of the buffer, unless the context is done first. *)
Fixpoint send_blocked (ctx : Context) (u : update) (i : nat)
    (blocked : list session) (ss : gmap session (option update))
  : gmap session (option update) * option error :=
  match blocked with
  | [] => (ss, None)
  | s :: blocked' =>
    match ctx_patience ctx with
    | Some k =>
      if decide (k ≤ i)%nat then (ss, Some (context_Err (ctx_Err ctx)))
      else send_blocked ctx u (S i) blocked' (<[s := Some u]> ss)
    | None => send_blocked ctx u (S i) blocked' (<[s := Some u]> ss)
    end
  end.

Definition notify (ctx : Context) (names : list string) (m : Manager)
  : notified :=
  match names with
  | [] => {| n_manager := m; n_update := None; n_err := None |}
  | _ =>
    let m1 := set_version (wrap_int (version m + 1)) m in
    let u := {| u_ctx := ctx; u_resources := list_to_set names |} in
    let blocked := blocked_sessions (sessions m1) in
    let ss1 := try_send u <$> sessions m1 in
    let '(ss2, err) := send_blocked ctx u 0 blocked ss1 in
    {| n_manager := set_sessions ss2 m1; n_update := Some u; n_err := err |}
  end.

(** *** Add, Replace, Delete *)

(** The state a mutation leaves, the update it published and what it
    returned (a nil or non-nil error, or a panic). *)
Record effect := {
  st : Manager;
  published : option update;
  ret : outcome (option error)
}.

(** The loop of [Add]: it stops at the first resource that cannot be named
    (panic) or does not validate (error return), keeping what it stored
    before. *)
Fixpoint Add_loop (rs : list Resource) (store : gmap string Resource)
    (changed : list string)
  : gmap string Resource * list string * option (outcome (option error)) :=
  match rs with
  | [] => (store, changed, None)
  | r :: rs' =>
    match resourceName r with
    | Panic msg => (store, changed, Some (Panic msg))
    | Return n =>
      match Validate r with
      | Some err =>
        (store, changed, Some (Return (Some (fmt_Errorf "%q: %w" [n] err))))
      | None => Add_loop rs' (<[n := r]> store) (changed ++ [n])
      end
    end
  end.

Definition Add (ctx : Context) (rs : list Resource) (m : Manager) : effect :=
  match Add_loop rs (resources m) [] with
  | (store, _, Some early) =>
    {| st := set_resources store m; published := None; ret := early |}
  | (store, changed, None) =>
    let n := notify ctx changed (set_resources store m) in
    {| st := n_manager n; published := n_update n; ret := Return None |}
  end.

(** The validation pass of [Replace], before the lock is taken. *)
Fixpoint Replace_validate (rs : list Resource)
  : option (outcome (option error)) :=
  match rs with
  | [] => None
  | r :: rs' =>
    match Validate r with
    | Some err =>
      match resourceName r with
      | Panic msg => Some (Panic msg)
      | Return n => Some (Return (Some (fmt_Errorf "%q: %w" [n] err)))
      end
    | None => Replace_validate rs'
    end
  end.

(** The loop of [Replace] over [rs]: [old] loses the names it meets, [store]
    is the fresh map. *)
Fixpoint Replace_loop (rs : list Resource) (old store : gmap string Resource)
    (changed : list string)
  : gmap string Resource * gmap string Resource * list string * option string :=
  match rs with
  | [] => (old, store, changed, None)
  | r :: rs' =>
    match resourceName r with
    | Panic msg => (old, store, changed, Some msg)
    | Return n =>
      Replace_loop rs' (delete n old) (<[n := r]> store) (changed ++ [n])
    end
  end.

Definition Replace (ctx : Context) (rs : list Resource) (m : Manager)
  : effect :=
  match Replace_validate rs with
  | Some early => {| st := m; published := None; ret := early |}
  | None =>
    match Replace_loop rs (resources m) ∅ [] with
    | (_, store, _, Some msg) =>
      {| st := set_resources store m; published := None; ret := Panic msg |}
    | (old, store, changed, None) =>
      let changed := changed ++ (map_to_list old).*1 in
      let n := notify ctx changed (set_resources store m) in
      {| st := n_manager n; published := n_update n; ret := Return None |}
    end
  end.

Definition Delete (ctx : Context) (n : string) (m : Manager)
  : Manager * option update :=
  match resources m !! n with
  | Some _ =>
    let r := notify ctx [n] (set_resources (delete n (resources m)) m) in
    (n_manager r, n_update r)
  | None => (m, None)
  end.

(** *** ListKeys, List *)

(** Go compares strings byte by byte; [String.leb] is that order. *)
Definition string_le (a b : string) : Prop := String.leb a b = true.

#[global] Instance string_le_dec : RelDecision string_le.
Proof. intros a b. unfold string_le. apply _. Defined.

Fixpoint resourceNames (rs : list Resource) : outcome (list string) :=
  match rs with
  | [] => Return []
  | r :: rs' =>
    match resourceName r with
    | Panic msg => Panic msg
    | Return n =>
      match resourceNames rs' with
      | Panic msg => Panic msg
      | Return ns => Return (n :: ns)
      end
    end
  end.

(** The key [List] sorts by; the default is never read, [List] panics
    before. *)
Definition name_key (r : Resource) : string :=
  match resourceName r with
  | Return n => n
  | Panic _ => ""
  end.

Definition by_name (r1 r2 : Resource) : Prop :=
  string_le (name_key r1) (name_key r2).

#[global] Instance by_name_dec : RelDecision by_name.
Proof. intros a b. unfold by_name. apply _. Defined.

Definition ListKeys (m : Manager) : outcome (list string) :=
  match resourceNames (map_to_list (resources m)).*2 with
  | Panic msg => Panic msg
  | Return ns => Return (merge_sort string_le ns)
  end.

(** [sort.Slice] calls [less] (and so [resourceName]) only on a slice of two
    or more elements, and then on every element. It is not a stable sort;
    the model sorts with a merge sort, which gives the same slice whenever
    the names are pairwise distinct. *)
Definition List (m : Manager) : outcome (list Resource) :=
  let result := (map_to_list (resources m)).*2 in
  if decide (length result ≤ 1)%nat then Return result
  else
    match resourceNames result with
    | Panic msg => Panic msg
    | Return _ => Return (merge_sort by_name result)
    end.

(** ** Responses *)

(** [crypto/rand.Read(b)] is [io.ReadFull] on the system source: it writes
    the bytes it got into a prefix of [b] and returns their number, with a nil
    error exactly when [b] was filled. [delivered] is what the source
    supplied. *)
Definition rand_Read (delivered : list ascii) (b : list ascii)
  : list ascii * Z * option error :=
  let n := Nat.min (length delivered) (length b) in
  (take n delivered ++ drop n b,
   Z.of_nat n,
   if decide (n < length b)%nat then Some (errors_New "unexpected EOF")
   else None).

(** [hash[i]%26 + 'a'] on a [byte]. *)
Definition to_letter (c : ascii) : ascii :=
  ascii_of_N ((N_of_ascii c mod 26 + N_of_ascii "a") mod 256).

Definition randomString (delivered : list ascii) : string :=
  let hash := replicate 8 "x"%char in
  let '(hash, n, err) := rand_Read delivered hash in
  let hash :=
    match err with
    | None => if decide (8 ≤ n) then to_letter <$> hash else hash
    | Some _ => hash
    end in
  String.string_of_list_ascii (take 8 hash).

Record DiscoveryResponse := {
  VersionInfo : string;
  TypeUrl : string;
  Resources : list Any;
  Nonce : string
}.

Record DiscoveryRequest := {
  req_NodeId : string;
  req_ResourceNames : option (list string);
  req_TypeUrl : string;
  req_ResponseNonce : string;
  req_VersionInfo : string;
  req_ErrorDetail : option string
}.

(** What a stream reads from outside at one turn of its loop: the clock, the
    bytes of the random source, and whether the response channel took the
    push before the five-second timer fired. *)
Record world := {
  now : Z;
  random : list ascii;
  push_ok : bool
}.

Record tx := {
  start : Z;
  nonce : string;
  tx_version : string
}.

(** [time.Minute], in nanoseconds, and [time.Since], which saturates. *)
Definition Minute : Z := 60 * 1000000000.
Definition Since (w : world) (t : Z) : Z :=
  Z.max int_min (Z.min int_max (now w - t)).

Inductive output :=
  | Pushed (res : DiscoveryResponse)
  | OnAckCalled (a : Acknowledgment).

(** The state of one [Stream] call: the variables the loop closes over. *)
Record stream := {
  node : string;
  subscribed : option (list string);
  txs : gmap string tx
}.

(** The cases of the loop's [select]. *)
Inductive event :=
  | Draining
  | CtxDone (err : ctx_error)
  | CleanupTick
  | RequestsClosed
  | Request (req : DiscoveryRequest)
  | Notification (u : update).

(** One turn of the loop either goes on or returns. *)
Inductive turn :=
  | Continue (s : stream) (out : list output)
  | Returns (s : stream) (err : error).

(** The entry and the exit of [Stream]: the session channel [rCh] is put
    into the manager's set, empty, and taken out again by the deferred
    cleanup. *)
Definition Stream_register (rCh : session) (m : Manager) : Manager :=
  set_sessions (<[rCh := None]> (sessions m)) m.

Definition Stream_cleanup (rCh : session) (m : Manager) : Manager :=
  set_sessions (delete rCh (sessions m)) m.

(** [fmt.Sprintf("nonce-%s-%s", version, hash)] *)
Definition nonce_format (version hash : string) : string :=
  "nonce-" +:+ version +:+ "-" +:+ hash.

Section Stream.

(** The generated validator of [DiscoveryResponse], from the Envoy API
    package. *)
Variable DiscoveryResponse_Validate : DiscoveryResponse → option error.

Definition BuildDiscoveryResponse (m : Manager) (delivered : list ascii)
    (subscribed : list string)
  : error + (DiscoveryResponse * list string) :=
  match snapshot m subscribed with
  | inl err => inl (fmt_Errorf "snapshot resources: %w" [] err)
  | inr (resources, names, version) =>
    let hash := randomString delivered in
    let res := {| VersionInfo := version;
                  TypeUrl := Type_ m;
                  Resources := resources;
                  Nonce := nonce_format version hash |} in
    match DiscoveryResponse_Validate res with
    | Some err =>
      inl (fmt_Errorf "validate generated discovery response: %w" [] err)
    | None => inr (res, names)
    end
  end.

(** [sendUpdate]: the transaction is recorded only when the push went
    through. *)
Definition sendUpdate (m : Manager) (w : world) (s : stream)
  : stream * list output :=
  match BuildDiscoveryResponse m (random w) (elems (subscribed s)) with
  | inl _ => (s, [])
  | inr (res, _) =>
    let t := {| start := now w; nonce := Nonce res;
                tx_version := VersionInfo res |} in
    if push_ok w then
      ({| node := node s; subscribed := subscribed s;
          txs := <[Nonce res := t]> (txs s) |}, [Pushed res])
    else (s, [])
  end.

(** [handleTx]: report the acknowledgement and retire the transaction. *)
Definition handleTx (m : Manager) (s : stream) (t : tx)
    (req : DiscoveryRequest) : stream * list output :=
  let ack := match req_ErrorDetail req with Some _ => false | None => true end in
  let out :=
    if OnAck m then
      [OnAckCalled {| Ack := ack; Node := node s;
                      Version := req_VersionInfo req |}]
    else [] in
  ({| node := node s; subscribed := subscribed s;
      txs := delete (nonce t) (txs s) |}, out).

(** [cmp.Diff(x, y) != ""] on two [[]string]: the slices differ unless both
    are nil or both are non-nil with the same elements in the same order. *)
Definition cmp_differ (x y : option (list string)) : bool :=
  bool_decide (x ≠ y).

(** [time.Since(t.start) > time.Minute] *)
Definition stale (w : world) (t : tx) : bool :=
  bool_decide (Minute < Since w (start t)).

Definition Stream_step (m : Manager) (w : world) (s : stream) (e : event)
  : turn :=
  match e with
  | Draining => Returns s (errors_New "server draining")
  | CtxDone err => Returns s (context_Err err)
  | CleanupTick =>
    Continue {| node := node s; subscribed := subscribed s;
                txs := filter (λ kt, stale w kt.2 = false) (txs s) |} []
  | RequestsClosed => Returns s (errors_New "request channel closed")
  | Request req =>
    let newResources := req_ResourceNames req in
    let s1 :=
      if decide (node s = "") then
        {| node := req_NodeId req; subscribed := newResources; txs := txs s |}
      else s in
    if cmp_differ (subscribed s1) newResources then
      Returns s1 (status_Error FailedPrecondition
                    "resource subscriptions changed unexpectedly")
    else if decide (req_TypeUrl req = Type_ m) then
      match txs s1 !! req_ResponseNonce req with
      | Some t => let '(s2, out) := handleTx m s1 t req in Continue s2 out
      | None => let '(s2, out) := sendUpdate m w s1 in Continue s2 out
      end
    else
      Returns s1 (status_Error InvalidArgument "wrong resource type requested")
  | Notification u =>
    let send :=
      existsb (λ name, bool_decide (name ∈ u_resources u))
              (elems (subscribed s)) in
    if bool_decide (length (elems (subscribed s)) = 0%nat) || send then
      let '(s2, out) := sendUpdate m w s in Continue s2 out
    else Continue s []
  end.

(** The variables of [Stream] before the loop starts. *)
Definition Stream_init : stream :=
  {| node := ""; subscribed := None; txs := ∅ |}.

(** The loop, over the events it selects: each comes with the manager as it
    is when the turn runs (other goroutines change it in between) and with
    what the turn reads from outside. It stops at the first turn that
    returns. *)
Fixpoint Stream (s : stream) (events : list (Manager * world * event))
  : stream * list output * option error :=
  match events with
  | [] => (s, [], None)
  | (m, w, e) :: events' =>
    match Stream_step m w s e with
    | Returns s' err => (s', [], Some err)
    | Continue s' out =>
      let '(s'', out', r) := Stream s' events' in (s'', out ++ out', r)
    end
  end.

End Stream.

(** ** Sample values

    Concrete resources, managers and requests on which the statements below
    are instantiated. *)
Module Sample.

Definition cluster (name payload : string) : Resource :=
  {| MessageName := "envoy.api.v2.Cluster";
     GetName := Some name; GetClusterName := None;
     Validate := None; Marshal := inr payload |}.

(** A load assignment is named by its cluster name only. *)
Definition assignment (name payload : string) : Resource :=
  {| MessageName := "envoy.api.v2.ClusterLoadAssignment";
     GetName := None; GetClusterName := Some name;
     Validate := None; Marshal := inr payload |}.

(** A message that validates but has neither accessor. *)
Definition unnamed : Resource :=
  {| MessageName := "envoy.api.v2.DiscoveryResponse";
     GetName := None; GetClusterName := None;
     Validate := None; Marshal := inr "" |}.

Definition invalid (name : string) : Resource :=
  {| MessageName := "envoy.api.v2.Cluster";
     GetName := Some name; GetClusterName := None;
     Validate := Some (errors_New "invalid Cluster.Name");
     Marshal := inr "" |}.

Definition a : Resource := cluster "a" "one".
Definition a' : Resource := cluster "a" "two".
Definition b : Resource := cluster "b" "three".

Definition background : Context :=
  {| ctx_id := 0; ctx_patience := None; ctx_Err := Canceled |}.

Definition cds : Manager := NewManager "cds" "v" (cluster "" "").

Definition no_rules (res : DiscoveryResponse) : option error := None.

Definition request (id : string) (names : option (list string))
    (nonce : string) : DiscoveryRequest :=
  {| req_NodeId := id; req_ResourceNames := names;
     req_TypeUrl := Type_ cds; req_ResponseNonce := nonce;
     req_VersionInfo := ""; req_ErrorDetail := None |}.

(** A turn at which the random source fails without delivering a byte. *)
Definition dry : world := {| now := 0; random := []; push_ok := true |}.

(** What a random source delivers when it fails after three bytes. *)
Definition short_read : list ascii := ["000"; "001"; "255"]%char.

End Sample.

(** A resource from which neither accessor gives a non-empty name. *)
Definition yields_no_name (r : Resource) : Prop :=
  (GetName r = None ∨ GetName r = Some "") ∧
  (GetClusterName r = None ∨ GetClusterName r = Some "").

(** The names of [want] that the store knows, in the order of [want]. *)
Definition present (rs : gmap string Resource) (want : list string)
  : list string :=
  filter (λ n, is_Some (rs !! n)) want.

(** The bytes ['a'] to ['z']. *)
Definition is_lower (c : ascii) : bool :=
  ((97 <=? N_of_ascii c) && (N_of_ascii c <=? 122))%N.

Definition lowercase (s : string) : Prop :=
  Forall (λ c, is_lower c = true) (String.list_ascii_of_string s).

(** Every entry of the transaction map sits under its own nonce. *)
Definition txs_keyed (s : stream) : Prop :=
  map_Forall (λ k t, nonce t = k) (txs s).

(** The nonces of the transactions a stream holds. *)
Definition live_nonces (s : stream) : list string :=
  nonce <$> (map_to_list (txs s)).*2.

(** No request of the run identifies its node. *)
Definition anonymous (events : list (Manager * world * event)) : Prop :=
  Forall (λ mwe, ∀ req, mwe.2 = Request req → req_NodeId req = "") events.

Module SampleRun.
Import Sample.

(** A stream that has latched node ["n1"] and the names ["a"; "b"]. *)
Definition latched : stream :=
  {| node := "n1"; subscribed := Some ["a"; "b"]; txs := ∅ |}.

(** The first request of a client that names itself. *)
Definition hello : Manager * world * event :=
  (cds, dry, Request (request "n1" (Some ["a"; "b"]) "")).

(** The same names in another order, acknowledging the first push. *)
Definition reordered : Manager * world * event :=
  (cds, dry, Request (request "n1" (Some ["b"; "a"]) "nonce-v0-xxxxxxxx")).

(** A wildcard request without a nonce. *)
Definition wildcard : Manager * world * event :=
  (cds, dry, Request (request "n1" None "")).

(** Two requests without node id, for different names. *)
Definition nameless : list (Manager * world * event) :=
  [(cds, dry, Request (request "" (Some ["a"]) ""));
   (cds, dry, Request (request "" (Some ["b"]) ""))].

End SampleRun.

Module Scenario.
Import Sample.

(** A manager with an acknowledgement observer, after [Add([a, b])]. *)
Definition served : Manager :=
  st (Add background [a; b]
        {| Name := "cds"; VersionPrefix := "v"; Type_ := Type_ cds;
           OnAck := true; version := 0; resources := ∅; sessions := ∅ |}).

(** The random source fills the buffer. *)
Definition lucky : world :=
  {| now := 0; push_ok := true;
     random := ["000"; "001"; "255"; "000"; "001"; "255"; "000"; "027"]%char |}.

Definition ack (nonce version : string) : DiscoveryRequest :=
  {| req_NodeId := "n1"; req_ResourceNames := None;
     req_TypeUrl := Type_ cds; req_ResponseNonce := nonce;
     req_VersionInfo := version; req_ErrorDetail := None |}.

End Scenario.

(** Every entry of the store sits under the name of its resource. *)
Definition store_keyed (m : Manager) : Prop :=
  map_Forall (λ k r, resourceName r = Return k) (resources m).

(** The state in which [Stream] compares the names of [req]: the first
    request seen while no node id is known latches its node id and names. *)
Definition latch (s : stream) (req : DiscoveryRequest) : stream :=
  if decide (node s = "") then
    {| node := req_NodeId req; subscribed := req_ResourceNames req;
       txs := txs s |}
  else s.

(** [handleTx]'s verdict: an acknowledgement unless an error detail is set. *)
Definition is_ack (req : DiscoveryRequest) : bool :=
  match req_ErrorDetail req with
  | Some _ => false
  | None => true
  end.

Module SampleTurn.
Import Sample.

(** The response to a first wildcard request on an empty manager while the
    random source is dry, its transaction, and the stream after the push. *)
Definition res0 : DiscoveryResponse :=
  {| VersionInfo := "v0"; TypeUrl := Type_ cds; Resources := [];
     Nonce := "nonce-v0-xxxxxxxx" |}.

Definition tx0 : tx :=
  {| start := 0; nonce := "nonce-v0-xxxxxxxx"; tx_version := "v0" |}.

Definition pushed : stream :=
  {| node := "n1"; subscribed := None;
     txs := {[ "nonce-v0-xxxxxxxx" := tx0 ]} |}.

(** A request for listeners, sent to the cluster manager. *)
Definition listeners : DiscoveryRequest :=
  {| req_NodeId := "n1"; req_ResourceNames := None;
     req_TypeUrl := "type.googleapis.com/envoy.api.v2.Listener";
     req_ResponseNonce := ""; req_VersionInfo := "";
     req_ErrorDetail := None |}.

Definition changed (names : gset string) : update :=
  {| u_ctx := background; u_resources := names |}.

End SampleTurn.

(** The errors with which [Stream] returns. *)
Definition terminal (err : error) : Prop :=
  err = errors_New "server draining" ∨
  (∃ e, err = context_Err e) ∨
  err = errors_New "request channel closed" ∨
  err = status_Error FailedPrecondition
          "resource subscriptions changed unexpectedly" ∨
  err = status_Error InvalidArgument "wrong resource type requested".

Module SampleNonce.
Import Sample.

(** A second manager, for load assignments, with the same version prefix. *)
Definition eds : Manager := NewManager "eds" "v" (assignment "" "").

(** Eight random bytes that all map to the letter ['x']. *)
Definition all_x : list ascii := replicate 8 "023"%char.

(** The response of [eds] to a request for ["backend"] with those bytes. *)
Definition res_eds : DiscoveryResponse :=
  {| VersionInfo := "v0"; TypeUrl := Type_ eds; Resources := [];
     Nonce := "nonce-v0-xxxxxxxx" |}.

(** The cluster manager after [Add([a])], and its wildcard response. *)
Definition cds_v1 : Manager := st (Add background [a] cds).

Definition res_v1 : DiscoveryResponse :=
  {| VersionInfo := "v1"; TypeUrl := Type_ cds;
     Resources := [{| any_TypeUrl := "type.googleapis.com/envoy.api.v2.Cluster";
                      any_Value := "one" |}];
     Nonce := "nonce-v1-xxxxxxxx" |}.

(** A manager with one registered session whose buffer is full. *)
Definition busy : Manager :=
  n_manager (notify background ["b"] (Stream_register 7%nat cds)).

End SampleNonce.

(** * Properties *)

#[local] Set Warnings "-clear-no-such-hyp".

(** ** notify *)

Lemma notify_nil ctx m :
  notify ctx [] m = {| n_manager := m; n_update := None; n_err := None |}.
Proof. reflexivity. Qed.

Lemma send_blocked_lookup ctx u blocked : ∀ i ss ss' err s,
  send_blocked ctx u i blocked ss = (ss', err) →
  ss' !! s = ss !! s ∨ (s ∈ blocked ∧ ss' !! s = Some (Some u)).
Proof.
  induction blocked as [|b blocked IH]; intros i ss ss' err s Hrun; simpl in Hrun.
  - left. congruence.
  - assert (Hgo : ∀ ss1, send_blocked ctx u (S i) blocked (<[b:=Some u]> ss) = (ss1, err) →
        ss1 !! s = ss !! s ∨ (s ∈ b :: blocked ∧ ss1 !! s = Some (Some u))).
    { intros ss1 H1. destruct (IH _ _ _ _ s H1) as [Heq | [Hin Hs]].
      - destruct (decide (b = s)) as [->|Hne].
        + right. split; [left|]. by rewrite Heq, lookup_insert_eq.
        + left. by rewrite Heq, lookup_insert_ne.
      - right. split; [by right | done]. }
    destruct (ctx_patience ctx) as [k|]; [|by apply Hgo].
    destruct (decide (k ≤ i)%nat); [|by apply Hgo].
    left. congruence.
Qed.

Lemma send_blocked_dom ctx u blocked : ∀ i ss ss' err,
  send_blocked ctx u i blocked ss = (ss', err) →
  (∀ b, b ∈ blocked → is_Some (ss !! b)) →
  dom ss' = dom ss.
Proof.
  induction blocked as [|b blocked IH]; intros i ss ss' err Hrun Hin; simpl in Hrun.
  - congruence.
  - assert (Hgo : send_blocked ctx u (S i) blocked (<[b:=Some u]> ss) = (ss', err) →
        dom ss' = dom ss).
    { intros H1. rewrite (IH _ _ _ _ H1).
      - rewrite dom_insert_L. apply subseteq_union_1_L.
        apply singleton_subseteq_l, elem_of_dom, Hin. left.
      - intros b' Hb'. destruct (decide (b = b')) as [->|Hne].
        + rewrite lookup_insert_eq. eauto.
        + rewrite lookup_insert_ne by done. apply Hin. by right. }
    destruct (ctx_patience ctx) as [k|]; [|by apply Hgo].
    destruct (decide (k ≤ i)%nat); [|by apply Hgo].
    congruence.
Qed.

Lemma blocked_sessions_spec ss s :
  s ∈ blocked_sessions ss ↔ ∃ old, ss !! s = Some (Some old).
Proof.
  unfold blocked_sessions. rewrite list_elem_of_fmap. split.
  - intros [[k v] [-> Hin]]. apply list_elem_of_filter in Hin as [[old Hv] Hin].
    simpl in *. subst v. apply elem_of_map_to_list in Hin. eauto.
  - intros [old Hs]. exists (s, Some old). split; [done|].
    apply list_elem_of_filter. split; [simpl; eauto|].
    by apply elem_of_map_to_list.
Qed.

(** What a call of [notify] with at least one name does. *)
Lemma notify_changed ctx names m :
  names ≠ [] →
  let r := notify ctx names m in
  let u := {| u_ctx := ctx; u_resources := list_to_set names |} in
  n_update r = Some u ∧
  version (n_manager r) = wrap_int (version m + 1) ∧
  resources (n_manager r) = resources m ∧
  dom (sessions (n_manager r)) = dom (sessions m) ∧
  (∀ s, sessions m !! s = Some None →
        sessions (n_manager r) !! s = Some (Some u)) ∧
  (∀ s old, sessions m !! s = Some (Some old) →
        sessions (n_manager r) !! s = Some (Some old) ∨
        sessions (n_manager r) !! s = Some (Some u)).
Proof.
  intros Hne. destruct names as [|n names]; [done|]. clear Hne.
  cbn zeta. unfold notify.
  set (u := {| u_ctx := ctx; u_resources := list_to_set (n :: names) |}).
  set (m1 := set_version (wrap_int (version m + 1)) m).
  destruct (send_blocked ctx u 0 (blocked_sessions (sessions m1))
              (try_send u <$> sessions m1)) as [ss2 err] eqn:Hsb.
  simpl. repeat split.
  - erewrite send_blocked_dom; [|exact Hsb|].
    + by rewrite dom_fmap_L.
    + intros b' Hb'. apply blocked_sessions_spec in Hb' as [old Hold].
      rewrite lookup_fmap, Hold. simpl. eauto.
  - intros s Hs.
    destruct (send_blocked_lookup _ _ _ _ _ _ _ s Hsb) as [Heq | [_ Heq]];
      [|done].
    rewrite Heq, lookup_fmap. simpl. by rewrite Hs.
  - intros s old Hs.
    destruct (send_blocked_lookup _ _ _ _ _ _ _ s Hsb) as [Heq | [_ Heq]];
      [|by right].
    left. rewrite Heq, lookup_fmap. simpl. by rewrite Hs.
Qed.

(** ** Add *)

Lemma wrap_int_id z : int_min ≤ z ≤ int_max → wrap_int z = z.
Proof.
  unfold int_min, int_max, wrap_int. intros Hz.
  rewrite Z.mod_small; lia.
Qed.

(** A batch of one valid, named resource stores it and bumps the version. *)
Lemma Add_one ctx r n m :
  resourceName r = Return n →
  Validate r = None →
  let e := Add ctx [r] m in
  ret e = Return None ∧
  resources (st e) = <[n := r]> (resources m) ∧
  version (st e) = wrap_int (version m + 1) ∧
  published e = Some {| u_ctx := ctx; u_resources := {[n]} |}.
Proof.
  intros Hn Hv. cbn zeta. unfold Add. cbn [Add_loop]. rewrite Hn, Hv.
  cbn [Add_loop app st published ret].
  destruct (notify_changed ctx [n] (set_resources (<[n:=r]> (resources m)) m))
    as (Hu & Hver & Hres & _); [done|].
  repeat split; try done.
  rewrite Hu. do 2 f_equal. cbn. apply union_empty_r_L.
Qed.

(** When [Add] stops early nothing is published and the version stays. *)
Lemma Add_early ctx rs m store changed early :
  Add_loop rs (resources m) [] = (store, changed, Some early) →
  Add ctx rs m = {| st := set_resources store m; published := None; ret := early |}.
Proof. intros H. unfold Add. by rewrite H. Qed.

(** C1 (evaluated at the failing batch): [Add] of a valid resource followed
    by one that does not validate returns the validation error, publishes
    nothing and leaves the version alone, but the valid resource is in the
    store. *)
Theorem Add_keeps_resources_stored_before_failure :
  let e := Add Sample.background [Sample.a; Sample.invalid "b"] Sample.cds in
  ret e = Return (Some (fmt_Errorf "%q: %w" ["b"]
                          (errors_New "invalid Cluster.Name"))) ∧
  published e = None ∧
  version (st e) = version Sample.cds ∧
  resources Sample.cds !! "a" = None ∧
  resources (st e) !! "a" = Some Sample.a.
Proof. vm_compute. repeat split. Qed.

(** C8 (amended): for a resource that validates and can be named, and a
    starting state whose counter is at least two below the largest [int],
    adding the resource twice leaves the resource map that adding it once
    leaves, both calls return nil, and the version counter is two more than
    at the start. *)
Theorem Add_twice ctx1 ctx2 r n m :
  resourceName r = Return n →
  Validate r = None →
  int_min ≤ version m →
  version m + 2 ≤ int_max →
  let once := Add ctx1 [r] m in
  let twice := Add ctx2 [r] (st once) in
  ret once = Return None ∧
  ret twice = Return None ∧
  resources (st twice) = resources (st once) ∧
  version (st twice) = version m + 2.
Proof.
  intros Hn Hv Hlo Hhi. cbn zeta.
  destruct (Add_one ctx1 r n m Hn Hv) as (Hr1 & Hs1 & Hv1 & _).
  destruct (Add_one ctx2 r n (st (Add ctx1 [r] m)) Hn Hv) as (Hr2 & Hs2 & Hv2 & _).
  repeat split; try done.
  - rewrite Hs2, Hs1. apply insert_insert_eq.
  - rewrite Hv2, Hv1.
    assert (int_max = 2 ^ 63 - 1) as Hmax by reflexivity.
    assert (int_min = - 2 ^ 63) as Hmin by reflexivity.
    rewrite (wrap_int_id (version m + 1)) by lia.
    rewrite wrap_int_id by lia. lia.
Qed.

Lemma Add_twice_witness :
  let once := Add Sample.background [Sample.a] Sample.cds in
  let twice := Add Sample.background [Sample.a] (st once) in
  ret once = Return None ∧
  ret twice = Return None ∧
  resources (st twice) = resources (st once) ∧
  version (st twice) = version Sample.cds + 2.
Proof.
  apply (Add_twice Sample.background Sample.background Sample.a "a" Sample.cds).
  - reflexivity.
  - reflexivity.
  - vm_compute. discriminate.
  - vm_compute. discriminate.
Defined.

(** C8 (counterexample): a message that validates but has neither name
    accessor. Both calls of [Add] panic before they store or notify, so the
    counter after the two calls is the starting counter, not two more. *)
Lemma Add_twice_unnamed_keeps_version :
  let once := Add Sample.background [Sample.unnamed] Sample.cds in
  let twice := Add Sample.background [Sample.unnamed] (st once) in
  Validate Sample.unnamed = None ∧
  ret once = Panic "unable to name resource" ∧
  ret twice = Panic "unable to name resource" ∧
  version (st twice) = version Sample.cds ∧
  version (st twice) ≠ version Sample.cds + 2.
Proof. cbn zeta. repeat split; try by vm_compute. Qed.

(** At the largest [int] the counter wraps: two more calls of [Add] leave it
    at the smallest [int] plus one. *)
Lemma Add_twice_wraps_at_int_max :
  let m := set_version int_max Sample.cds in
  let twice :=
    Add Sample.background [Sample.a]
        (st (Add Sample.background [Sample.a] m)) in
  version (st twice) = int_min + 1 ∧
  version (st twice) ≠ version m + 2.
Proof. cbn zeta. split; by vm_compute. Qed.

(** ** Delete *)

(** C6: deleting a name that is not in the resource map changes nothing
    (same manager, hence same map, version and sessions) and publishes
    nothing; deleting a name that is there removes that entry and no other,
    bumps the version and publishes one update whose set of names is that
    name alone, offered to every session. *)
Theorem Delete_absent_or_present ctx n m :
  (resources m !! n = None → Delete ctx n m = (m, None)) ∧
  (is_Some (resources m !! n) →
     let u := {| u_ctx := ctx; u_resources := {[n]} |} in
     let m' := (Delete ctx n m).1 in
     (Delete ctx n m).2 = Some u ∧
     resources m' = delete n (resources m) ∧
     resources m' !! n = None ∧
     (∀ k, k ≠ n → resources m' !! k = resources m !! k) ∧
     version m' = wrap_int (version m + 1) ∧
     dom (sessions m') = dom (sessions m) ∧
     (∀ s, sessions m !! s = Some None → sessions m' !! s = Some (Some u))).
Proof.
  split.
  - intros Hn. unfold Delete. by rewrite Hn.
  - intros [r Hr]. cbn zeta. unfold Delete. rewrite Hr. cbn [fst snd].
    destruct (notify_changed ctx [n] (set_resources (delete n (resources m)) m))
      as (Hu & Hver & Hres & Hdom & Hempty & _); [done|].
    assert (list_to_set [n] = ({[n]} : gset string)) as Hset
      by apply union_empty_r_L.
    rewrite Hset in Hu, Hempty. cbn [resources set_resources] in Hres.
    repeat split; try done.
    + rewrite Hres. apply lookup_delete_eq.
    + intros k Hk. rewrite Hres. by apply lookup_delete_ne.
Qed.

Lemma Delete_absent_or_present_witness :
  Delete Sample.background "a" Sample.cds = (Sample.cds, None) ∧
  (Delete Sample.background "a"
     (st (Add Sample.background [Sample.a] Sample.cds))).2
  = Some {| u_ctx := Sample.background; u_resources := {["a"]} |}.
Proof.
  split.
  - apply (Delete_absent_or_present Sample.background "a" Sample.cds).
    reflexivity.
  - apply (Delete_absent_or_present Sample.background "a"
             (st (Add Sample.background [Sample.a] Sample.cds))).
    vm_compute. eauto.
Defined.

(** ** resourceName *)


(** C2 (counterexample): a message with neither accessor yields no name, and
    name extraction panics on it. *)
Lemma resourceName_panics_without_accessor :
  yields_no_name Sample.unnamed ∧
  resourceName Sample.unnamed = Panic "unable to name resource".
Proof. split; [split; by left | reflexivity]. Qed.

(** An accessor that is there decides, whatever it returns: an empty primary
    name is returned as it is, the cluster name is not consulted. *)
Lemma resourceName_empty_primary :
  resourceName {| MessageName := "envoy.api.v2.Cluster"; GetName := Some "";
                  GetClusterName := Some "backend"; Validate := None;
                  Marshal := inr "" |} = Return "".
Proof. reflexivity. Qed.

(** C2 (amended): name extraction returns a name exactly for the resources
    that have one of the two accessors: the primary name when that accessor
    is there (even if it is empty), otherwise the cluster name; on a resource
    with neither accessor it panics. It never returns an error. *)
Theorem resourceName_accessors r :
  ((is_Some (GetName r) ∨ is_Some (GetClusterName r)) ↔
     ∃ n, resourceName r = Return n) ∧
  (∀ n, resourceName r = Return n →
     GetName r = Some n ∨ (GetName r = None ∧ GetClusterName r = Some n)) ∧
  (GetName r = None → GetClusterName r = None →
     resourceName r = Panic "unable to name resource").
Proof.
  unfold resourceName.
  destruct (GetName r) as [x|], (GetClusterName r) as [y|];
    (split; [split|split]);
    try (intros []; eauto; fail);
    try (intros [n [=]]; eauto; fail);
    try (intros n [=]; subst; eauto; fail);
    try (intros [[? [=]]|[? [=]]]; fail);
    try done.
Qed.

Lemma resourceName_accessors_witness :
  (∃ n, resourceName (Sample.assignment "backend" "") = Return n) ∧
  resourceName Sample.unnamed = Panic "unable to name resource".
Proof.
  split.
  - apply (resourceName_accessors (Sample.assignment "backend" "")).
    right. simpl. eauto.
  - apply (resourceName_accessors Sample.unnamed); reflexivity.
Defined.

(** ** snapshot *)


Lemma snapshot_loop_ok rs want : ∀ result names result' names',
  snapshot_loop rs want result names = inr (result', names') →
  ∃ more,
    result' = result ++ more ∧
    names' = names ++ present rs want ∧
    Forall2 (λ n a, ∃ r, rs !! n = Some r ∧ MarshalAny r = inr a)
            (present rs want) more.
Proof.
  induction want as [|n want IH]; intros result names result' names' Hrun;
    simpl in Hrun.
  - exists []. simplify_eq. by rewrite !app_nil_r.
  - unfold present. rewrite filter_cons.
    destruct (rs !! n) as [r|] eqn:Hr.
    + destruct (MarshalAny r) as [err|a] eqn:Ha; [done|].
      destruct (IH _ _ _ _ Hrun) as (more & -> & -> & Hall).
      exists (a :: more). rewrite <- !app_assoc. simpl.
      destruct (decide (is_Some (Some r))) as [_|Hno]; [|by destruct Hno].
      repeat split; try done. constructor; eauto.
    + destruct (IH _ _ _ _ Hrun) as (more & -> & -> & Hall).
      exists more.
      destruct (decide (is_Some (@None Resource))) as [[? Hno]|_]; [done|].
      done.
Qed.

Lemma snapshot_loop_err rs want : ∀ result names err,
  snapshot_loop rs want result names = inl err →
  ∃ n r e, n ∈ want ∧ rs !! n = Some r ∧ MarshalAny r = inl e ∧
           err = fmt_Errorf "marshal resource %s to any: %w" [n] e.
Proof.
  induction want as [|n want IH]; intros result names err Hrun;
    simpl in Hrun; [done|].
  destruct (rs !! n) as [r|] eqn:Hr.
  - destruct (MarshalAny r) as [e|a] eqn:Ha.
    + exists n, r, e. simplify_eq. repeat split; try done. left.
    + destruct (IH _ _ _ Hrun) as (n' & r' & e' & Hin & ?).
      exists n', r', e'. split; [by right | done].
  - destruct (IH _ _ _ Hrun) as (n' & r' & e' & Hin & ?).
    exists n', r', e'. split; [by right | done].
Qed.

(** C7: for a non-empty [want], [snapshot] returns the names of [want] that
    are in the store, in the order of [want], each with its resource wrapped
    in an [Any], and the current version string; a name that is not in the
    store is left out and never makes the call fail: the only error is that
    of a resource that is in the store and cannot be marshalled, and without
    such a resource the call succeeds. *)
Theorem snapshot_present_in_order m want :
  want ≠ [] →
  match snapshot m want with
  | inr (result, names, v) =>
    names = present (resources m) want ∧
    Forall2 (λ n a, ∃ r, resources m !! n = Some r ∧ MarshalAny r = inr a)
            names result ∧
    v = versionString m
  | inl err =>
    ∃ n r e, n ∈ want ∧ resources m !! n = Some r ∧ MarshalAny r = inl e ∧
             err = fmt_Errorf "marshal resource %s to any: %w" [n] e
  end ∧
  ((∀ n r, n ∈ want → resources m !! n = Some r → ∃ a, MarshalAny r = inr a) →
   ∃ result,
     snapshot m want = inr (result, present (resources m) want, versionString m)).
Proof.
  intros Hne. unfold snapshot. destruct want as [|n want]; [done|].
  destruct (snapshot_loop (resources m) (n :: want) [] [])
    as [err|[result names]] eqn:Hrun.
  - apply snapshot_loop_err in Hrun as (n' & r & e & Hin & Hr & He & ->).
    split; [by eauto 10|].
    intros Hok. destruct (Hok n' r Hin Hr) as [a Ha]. congruence.
  - apply snapshot_loop_ok in Hrun as (more & -> & -> & Hall).
    split; [done | eauto].
Qed.

Lemma snapshot_present_in_order_witness :
  ∃ result,
    snapshot (st (Add Sample.background [Sample.a] Sample.cds)) ["b"; "a"]
    = inr (result,
           present (resources (st (Add Sample.background [Sample.a] Sample.cds)))
                   ["b"; "a"],
           versionString (st (Add Sample.background [Sample.a] Sample.cds))).
Proof.
  apply (snapshot_present_in_order
           (st (Add Sample.background [Sample.a] Sample.cds)) ["b"; "a"]).
  - discriminate.
  - intros n r Hin Hr.
    apply elem_of_cons in Hin as [-> | Hin].
    + vm_compute in Hr. discriminate.
    + apply list_elem_of_singleton in Hin as ->.
      vm_compute in Hr. injection Hr as <-. vm_compute. eauto.
Defined.

(** ** Replace *)

Lemma resourceNames_cons r rs ns :
  resourceNames (r :: rs) = Return ns →
  ∃ n ns', ns = n :: ns' ∧ resourceName r = Return n ∧
           resourceNames rs = Return ns'.
Proof.
  simpl. destruct (resourceName r) as [n|]; [|done].
  destruct (resourceNames rs) as [ns'|]; [|done].
  intros [= <-]. eauto.
Qed.

Lemma resourceNames_Forall rs :
  (∃ ns, resourceNames rs = Return ns) ↔
  Forall (λ r, ∃ n, resourceName r = Return n) rs.
Proof.
  induction rs as [|r rs IH]; simpl.
  - split; [constructor | eauto].
  - split.
    + intros [ns Hns]. apply resourceNames_cons in Hns as (n & ns' & _ & Hn & Hrs).
      constructor; [eauto | apply IH; eauto].
    + intros Hall. apply Forall_cons in Hall as [[n Hn] Hrs].
      apply IH in Hrs as [ns' Hns']. rewrite Hn, Hns'. eauto.
Qed.

Lemma name_key_Return r n : resourceName r = Return n → name_key r = n.
Proof. unfold name_key. by intros ->. Qed.

Lemma Replace_validate_valid rs :
  Forall (λ r, Validate r = None) rs → Replace_validate rs = None.
Proof. induction 1 as [|r rs Hr _ IH]; simpl; [done|]. by rewrite Hr. Qed.

Lemma Replace_validate_invalid rs ns :
  resourceNames rs = Return ns →
  Exists (λ r, Validate r ≠ None) rs →
  ∃ n err, Replace_validate rs
           = Some (Return (Some (fmt_Errorf "%q: %w" [n] err))).
Proof.
  revert ns. induction rs as [|r rs IH]; intros ns Hns Hex.
  - by apply Exists_nil in Hex.
  - apply resourceNames_cons in Hns as (n & ns' & _ & Hn & Hrs). simpl.
    destruct (Validate r) as [err|] eqn:Hv.
    + rewrite Hn. eauto.
    + apply Exists_cons in Hex as [Hbad | Hex]; [done|]. eauto.
Qed.

Lemma Replace_loop_named rs : ∀ ns old store changed,
  resourceNames rs = Return ns →
  Replace_loop rs old store changed =
    (foldl (λ o n, delete n o) old ns,
     foldl (λ acc r, <[name_key r := r]> acc) store rs,
     changed ++ ns, None).
Proof.
  induction rs as [|r rs IH]; intros ns old store changed Hns.
  - simpl in Hns. simplify_eq. simpl. by rewrite app_nil_r.
  - apply resourceNames_cons in Hns as (n & ns' & -> & Hn & Hrs). simpl.
    rewrite Hn, (name_key_Return _ _ Hn), (IH _ _ _ _ Hrs).
    by rewrite <- app_assoc.
Qed.

Lemma dom_foldl_delete (ns : list string) : ∀ old : gmap string Resource,
  dom (foldl (λ o n, delete n o) old ns) = dom old ∖ list_to_set ns.
Proof.
  induction ns as [|n ns IH]; intros old; simpl.
  - set_solver.
  - rewrite IH, dom_delete_L. set_solver.
Qed.

Lemma dom_foldl_insert rs : ∀ ns (store : gmap string Resource),
  resourceNames rs = Return ns →
  dom (foldl (λ acc r, <[name_key r := r]> acc) store rs)
  = dom store ∪ list_to_set ns.
Proof.
  induction rs as [|r rs IH]; intros ns store Hns.
  - simpl in Hns. simplify_eq. simpl. set_solver.
  - apply resourceNames_cons in Hns as (n & ns' & -> & Hn & Hrs). simpl.
    rewrite (IH _ _ Hrs), dom_insert_L, (name_key_Return _ _ Hn). set_solver.
Qed.

Lemma keys_to_set (m : gmap string Resource) :
  list_to_set (map_to_list m).*1 = dom m.
Proof.
  apply set_eq. intros k.
  rewrite elem_of_list_to_set, list_elem_of_fmap, elem_of_dom. split.
  - intros [[k' r] [-> Hin]]. apply elem_of_map_to_list in Hin. eauto.
  - intros [r Hr]. exists (k, r). split; [done|]. by apply elem_of_map_to_list.
Qed.

(** With pairwise distinct names the new store holds the batch itself. *)
Lemma foldl_insert_values rs : ∀ ns (store : gmap string Resource),
  resourceNames rs = Return ns →
  NoDup ns →
  (∀ n, n ∈ ns → store !! n = None) →
  (map_to_list (foldl (λ acc r, <[name_key r := r]> acc) store rs)).*2
  ≡ₚ (map_to_list store).*2 ++ rs.
Proof.
  induction rs as [|r rs IH]; intros ns store Hns Hnd Hfresh.
  - simpl. by rewrite app_nil_r.
  - apply resourceNames_cons in Hns as (n & ns' & -> & Hn & Hrs). simpl.
    apply NoDup_cons in Hnd as [Hnotin Hnd].
    rewrite (name_key_Return _ _ Hn).
    rewrite (IH ns' (<[n:=r]> store) Hrs Hnd).
    + rewrite map_to_list_insert by (apply Hfresh; left).
      simpl. by rewrite Permutation_middle.
    + intros n' Hn'. rewrite lookup_insert_ne; [apply Hfresh; by right|].
      intros ->. done.
Qed.

Lemma foldl_insert_lookup rs : ∀ ns (store : gmap string Resource) k r,
  resourceNames rs = Return ns →
  NoDup ns →
  ((foldl (λ acc r, <[name_key r := r]> acc) store rs) !! k = Some r ↔
   (r ∈ rs ∧ name_key r = k) ∨ ((k ∉ ns) ∧ store !! k = Some r)).
Proof.
  induction rs as [|r0 rs IH]; intros ns store k r Hns Hnd.
  - simpl in Hns. simplify_eq. simpl. split.
    + intros H. right. split; [apply not_elem_of_nil | done].
    + intros [[Hin _]|[_ H]]; [by apply elem_of_nil in Hin | done].
  - apply resourceNames_cons in Hns as (n & ns' & -> & Hn & Hrs). simpl.
    apply NoDup_cons in Hnd as [Hnotin Hnd].
    pose proof (name_key_Return _ _ Hn) as Hkey.
    rewrite (IH ns' _ k r Hrs Hnd), Hkey. split.
    + intros [[Hin Hk] | [Hk Hlook]].
      * left. split; [by right | done].
      * destruct (decide (n = k)) as [->|Hne].
        -- rewrite lookup_insert_eq in Hlook. simplify_eq.
           left. split; [left | done].
        -- rewrite lookup_insert_ne in Hlook by done.
           right. split; [|done]. intros [->|?]%elem_of_cons; done.
    + intros [[Hin Hk] | [Hk Hlook]].
      * apply elem_of_cons in Hin as [-> | Hin]; [|by left].
        right. rewrite Hkey in Hk. subst k.
        split; [done | apply lookup_insert_eq].
      * right. apply not_elem_of_cons in Hk as [Hne Hk].
        split; [done|]. by rewrite lookup_insert_ne.
Qed.

#[global] Instance by_name_total : Total by_name.
Proof. intros r1 r2. apply String.leb_total. Qed.

Lemma Sorted_short {A} (R : relation A) (l : list A) :
  (length l ≤ 1)%nat → Sorted R l.
Proof.
  destruct l as [|x [|y l]]; simpl; intros Hlen.
  - constructor.
  - repeat constructor.
  - lia.
Qed.

(** [List] on a store whose values are a named batch. *)
Lemma List_of_values m rs ns :
  resourceNames rs = Return ns →
  (map_to_list (resources m)).*2 ≡ₚ rs →
  ∃ l, List m = Return l ∧ l ≡ₚ rs ∧ Sorted by_name l.
Proof.
  intros Hns Hperm. unfold List.
  destruct (decide (length (map_to_list (resources m)).*2 ≤ 1)%nat) as [Hlen|_].
  - eexists. split; [done|]. split; [done|]. by apply Sorted_short.
  - assert (∃ ns', resourceNames (map_to_list (resources m)).*2 = Return ns')
      as [ns' ->].
    { apply resourceNames_Forall. rewrite Hperm. apply resourceNames_Forall. eauto. }
    eexists. split; [done|]. split.
    + by rewrite merge_sort_Permutation.
    + apply (Sorted_merge_sort by_name).
Qed.

(** C5 (counterexample): a valid batch in which two resources have the same
    name. [Replace] succeeds, and [List] then yields one resource, not the
    batch in name order. *)
Lemma Replace_same_name_twice_List :
  let rs := [Sample.a; Sample.a'] in
  let e := Replace Sample.background rs Sample.cds in
  Forall (λ r, Validate r = None) rs ∧
  ret e = Return None ∧
  List (st e) = Return [Sample.a'] ∧
  ¬ [Sample.a'] ≡ₚ rs.
Proof.
  cbn zeta. split; [by repeat constructor|]. split; [by vm_compute|].
  split; [by vm_compute|].
  intros Hperm. apply Permutation_length in Hperm. discriminate.
Qed.

(** C5 (amended): for a batch whose resources can all be named: if one of
    them does not validate, [Replace] returns an error, leaves the manager as
    it was and publishes nothing; if all validate, the store afterwards is
    the batch keyed by name, a later resource taking the place of an earlier
    one of the same name, so that with pairwise distinct names the store
    holds exactly the batch and [List] yields the batch sorted by name; the
    update published (when a name was touched at all) lists the added, the
    updated and the removed names. *)
Theorem Replace_validates_then_swaps ctx rs m ns :
  resourceNames rs = Return ns →
  let e := Replace ctx rs m in
  let old : gset string := dom (resources m) in
  let new : gset string := list_to_set ns in
  (Exists (λ r, Validate r ≠ None) rs →
     st e = m ∧ published e = None ∧ ∃ err, ret e = Return (Some err)) ∧
  (Forall (λ r, Validate r = None) rs →
     ret e = Return None ∧
     resources (st e) = foldl (λ acc r, <[name_key r := r]> acc) ∅ rs ∧
     dom (resources (st e)) = new ∧
     (NoDup ns →
        (∀ n r, resources (st e) !! n = Some r ↔ r ∈ rs ∧ name_key r = n) ∧
        ∃ l, List (st e) = Return l ∧ l ≡ₚ rs ∧ Sorted by_name l) ∧
     (new ∪ old ≠ ∅ →
        published e =
          Some {| u_ctx := ctx;
                  u_resources := (new ∖ old) ∪ (new ∩ old) ∪ (old ∖ new) |}) ∧
     (new ∪ old = ∅ → published e = None)).
Proof.
  intros Hns. cbn zeta. split.
  - intros Hbad. unfold Replace.
    destruct (Replace_validate_invalid rs ns Hns Hbad) as (n & err & ->).
    simpl. eauto.
  - intros Hvalid. unfold Replace.
    rewrite (Replace_validate_valid rs Hvalid).
    rewrite (Replace_loop_named rs ns _ _ _ Hns). cbn [app st published ret].
    set (old' := foldl (λ o n, delete n o) (resources m) ns).
    set (store := foldl (λ acc r, <[name_key r := r]> acc) ∅ rs).
    set (changed := ns ++ (map_to_list old').*1).
    assert (list_to_set changed
            = (list_to_set ns : gset string) ∪ dom (resources m)) as Hset.
    { unfold changed. rewrite list_to_set_app_L, keys_to_set.
      unfold old'. rewrite dom_foldl_delete.
      apply set_eq. intros k.
      destruct (decide (k ∈ (list_to_set ns : gset string))); set_solver. }
    assert (dom store = list_to_set ns) as Hdom.
    { unfold store. rewrite (dom_foldl_insert rs ns ∅ Hns). set_solver. }
    assert (resources (n_manager (notify ctx changed (set_resources store m)))
            = store) as Hres.
    { destruct changed; [done|].
      by destruct (notify_changed ctx (s :: changed) (set_resources store m))
        as (_ & _ & -> & _). }
    rewrite Hres.
    split; [done|]. split; [done|]. split; [done|]. split; [|split].
    + intros Hnd. split.
      * intros n r. unfold store.
        rewrite (foldl_insert_lookup rs ns ∅ n r Hns Hnd).
        rewrite lookup_empty. naive_solver.
      * apply (List_of_values _ rs ns Hns). rewrite Hres. unfold store.
        rewrite (foldl_insert_values rs ns ∅ Hns Hnd).
        -- by rewrite map_to_list_empty.
        -- intros. apply lookup_empty.
    + intros Hsome. destruct changed as [|c changed'] eqn:Hch.
      { exfalso. apply Hsome. rewrite <- Hset. done. }
      destruct (notify_changed ctx (c :: changed') (set_resources store m))
        as (-> & _); [done|].
      do 2 f_equal. rewrite Hset.
      apply set_eq. intros k.
      destruct (decide (k ∈ (list_to_set ns : gset string)));
        destruct (decide (k ∈ dom (resources m))); set_solver.
    + intros Hnone. destruct changed as [|c changed'] eqn:Hch; [done|].
      exfalso. rewrite <- Hset in Hnone.
      assert (c ∈ (list_to_set (c :: changed') : gset string)) as Hc
        by (apply elem_of_list_to_set; left).
      rewrite Hnone in Hc. by apply not_elem_of_empty in Hc.
Qed.

Lemma Replace_validates_then_swaps_witness :
  (∃ l, List (st (Replace Sample.background [Sample.b; Sample.a] Sample.cds))
        = Return l ∧ l ≡ₚ [Sample.b; Sample.a] ∧ Sorted by_name l) ∧
  st (Replace Sample.background [Sample.a; Sample.invalid "b"] Sample.cds)
  = Sample.cds.
Proof.
  split.
  - apply (Replace_validates_then_swaps Sample.background
             [Sample.b; Sample.a] Sample.cds ["b"; "a"]).
    + reflexivity.
    + repeat constructor.
    + apply NoDup_cons. split; [|apply NoDup_singleton].
      intros Hin. apply list_elem_of_singleton in Hin. discriminate.
  - apply (Replace_validates_then_swaps Sample.background
             [Sample.a; Sample.invalid "b"] Sample.cds ["a"; "b"]).
    + reflexivity.
    + apply Exists_cons_tl, Exists_cons_hd. discriminate.
Defined.

(** ** randomString and the response *)

Lemma to_letter_lower c : is_lower (to_letter c) = true.
Proof. destruct c as [[] [] [] [] [] [] [] []]; reflexivity. Qed.

Lemma randomString_full d :
  (8 ≤ length d)%nat →
  randomString d = String.string_of_list_ascii (to_letter <$> take 8 d).
Proof.
  intros Hd. unfold randomString, rand_Read.
  rewrite length_replicate, Nat.min_r by done.
  destruct (decide (8 < 8)%nat) as [?|_]; [lia|].
  destruct (decide (8 ≤ Z.of_nat 8)) as [_|?]; [|lia].
  change (drop 8 (replicate 8 "x"%char)) with (@nil ascii).
  rewrite app_nil_r, <- fmap_take, take_take. done.
Qed.

Lemma randomString_short d :
  (length d < 8)%nat →
  randomString d
  = String.string_of_list_ascii (d ++ replicate (8 - length d) "x"%char).
Proof.
  intros Hd. unfold randomString, rand_Read.
  rewrite length_replicate, Nat.min_l by lia.
  destruct (decide (length d < 8)%nat) as [_|?]; [|lia].
  rewrite firstn_all, drop_replicate.
  rewrite take_ge; [done|].
  rewrite length_app, length_replicate. lia.
Qed.

Lemma length_string_of_list l :
  String.length (String.string_of_list_ascii l) = length l.
Proof. induction l; simpl; congruence. Qed.

(** The suffix always has eight bytes. *)
Lemma randomString_length d : String.length (randomString d) = 8%nat.
Proof.
  destruct (decide (8 ≤ length d)%nat) as [Hd|Hd].
  - rewrite randomString_full, length_string_of_list by done.
    rewrite length_fmap, length_take. lia.
  - rewrite randomString_short, length_string_of_list by lia.
    rewrite length_app, length_replicate. lia.
Qed.

(** It is made of lower-case letters when the source fills the buffer, and
    when it fails before writing anything. *)
Lemma randomString_lowercase d :
  (8 ≤ length d)%nat ∨ d = [] → lowercase (randomString d).
Proof.
  unfold lowercase. intros [Hd | ->].
  - rewrite randomString_full by done.
    rewrite String.list_ascii_of_string_of_list_ascii.
    apply Forall_fmap, Forall_forall. intros c _. apply to_letter_lower.
  - by repeat constructor.
Qed.

(** What a response that was built carries. *)
Lemma BuildDiscoveryResponse_fields validate m d want res names :
  BuildDiscoveryResponse validate m d want = inr (res, names) →
  VersionInfo res = VersionPrefix m +:+ pretty (version m) ∧
  TypeUrl res = Type_ m ∧
  Nonce res = nonce_format (VersionInfo res) (randomString d).
Proof.
  unfold BuildDiscoveryResponse.
  destruct (snapshot m want) as [err|[[result ns] v]] eqn:Hsnap; [done|].
  assert (v = versionString m) as ->.
  { unfold snapshot, snapshotAll in Hsnap.
    destruct want.
    - destruct (snapshot_all_loop _ _ _) as [?|[? ?]]; by simplify_eq.
    - destruct (snapshot_loop _ _ _ _) as [?|[? ?]]; by simplify_eq. }
  destruct (validate _); [done|]. intros [= <- <-]. done.
Qed.

(** C9 (evaluated at the failing input): the random source writes three
    bytes into the buffer and then fails. The response is built, its version
    is the prefix followed by the counter in decimal, and its nonce ends in
    the three bytes read followed by five ['x']: the suffix is eight bytes
    long but not eight lower-case letters. *)
Theorem nonce_suffix_after_short_read :
  ∃ res names,
    BuildDiscoveryResponse Sample.no_rules Sample.cds Sample.short_read []
    = inr (res, names) ∧
    VersionInfo res = "v0" ∧
    Nonce res = nonce_format "v0" (randomString Sample.short_read) ∧
    randomString Sample.short_read
    = String "000" (String "001" (String "255" "xxxxx")) ∧
    ¬ lowercase (randomString Sample.short_read).
Proof.
  eexists _, _. split; [by vm_compute|]. split; [by vm_compute|].
  split; [by vm_compute|]. split; [by vm_compute|].
  intros Hlow. apply Forall_cons in Hlow as [Hc _]. by vm_compute in Hc.
Qed.

(** ** The stream loop *)

Section StreamProperties.

Variable validate : DiscoveryResponse → option error.

Lemma sendUpdate_cases m w s :
  sendUpdate validate m w s = (s, []) ∨
  ∃ res names,
    BuildDiscoveryResponse validate m (random w) (elems (subscribed s))
    = inr (res, names) ∧
    sendUpdate validate m w s =
      ({| node := node s; subscribed := subscribed s;
          txs := <[Nonce res := {| start := now w; nonce := Nonce res;
                                   tx_version := VersionInfo res |}]> (txs s) |},
       [Pushed res]).
Proof.
  unfold sendUpdate.
  destruct (BuildDiscoveryResponse _ _ _ _) as [err|[res names]]; [by left|].
  destruct (push_ok w); [|by left]. right. eauto.
Qed.

Lemma sendUpdate_frame m w s :
  node (sendUpdate validate m w s).1 = node s ∧
  subscribed (sendUpdate validate m w s).1 = subscribed s.
Proof.
  destruct (sendUpdate_cases m w s) as [-> | (res & names & _ & ->)]; done.
Qed.

Lemma sendUpdate_keyed m w s :
  txs_keyed s → txs_keyed (sendUpdate validate m w s).1.
Proof.
  intros Hs.
  destruct (sendUpdate_cases m w s) as [-> | (res & names & _ & ->)]; [done|].
  by apply map_Forall_insert_2.
Qed.

Lemma Stream_step_keyed m w s e :
  txs_keyed s →
  match Stream_step validate m w s e with
  | Continue s' _ | Returns s' _ => txs_keyed s'
  end.
Proof.
  intros Hs. destruct e as [| | | |req|u]; simpl; try done.
  - unfold txs_keyed in *. simpl. intros k t Hkt.
    apply map_lookup_filter_Some_1_1 in Hkt. by apply Hs.
  - set (s1 := if decide (node s = "") then _ else s).
    assert (txs_keyed s1) as Hs1 by (unfold s1; by destruct (decide _)).
    destruct (cmp_differ _ _); [done|].
    destruct (decide (req_TypeUrl req = Type_ m)); [|done].
    destruct (txs s1 !! req_ResponseNonce req) as [t|].
    + simpl. by apply map_Forall_delete.
    + pose proof (sendUpdate_keyed m w s1 Hs1).
      by destruct (sendUpdate validate m w s1).
  - destruct (_ || _); [|done].
    pose proof (sendUpdate_keyed m w s Hs).
    by destruct (sendUpdate validate m w s).
Qed.

Lemma Stream_keyed events : ∀ s,
  txs_keyed s → txs_keyed (Stream validate s events).1.1.
Proof.
  induction events as [|[[m w] e] events IH]; intros s Hs; simpl; [done|].
  pose proof (Stream_step_keyed m w s e Hs) as Hstep.
  destruct (Stream_step validate m w s e) as [s' out|s' err]; [|done].
  specialize (IH s' Hstep).
  by destruct (Stream validate s' events) as [[s'' out'] r].
Qed.

Lemma keyed_nonces_distinct s : txs_keyed s → NoDup (live_nonces s).
Proof.
  intros Hs. unfold live_nonces.
  assert (nonce <$> (map_to_list (txs s)).*2 = (map_to_list (txs s)).*1) as ->.
  { rewrite <- list_fmap_compose. apply list_fmap_ext.
    intros i [k t] Hkt%list_elem_of_lookup_2%elem_of_map_to_list.
    simpl. by apply Hs in Hkt. }
  apply NoDup_fst_map_to_list.
Qed.

(** C4 (amended): at every point of a stream's run the transactions held in
    its map have pairwise distinct nonces, each being the key of its entry.
    The nonce of a response that is pushed is built from the version string
    and the random suffix and is not compared with the live ones: the new
    transaction is stored under it, taking the place of a live transaction
    that has the same nonce, and every other entry stays. *)
Theorem live_nonces_distinct events :
  let s := (Stream validate Stream_init events).1.1 in
  txs_keyed s ∧
  NoDup (live_nonces s) ∧
  ∀ m w s' res,
    sendUpdate validate m w s = (s', [Pushed res]) →
    Nonce res = nonce_format (versionString m) (randomString (random w)) ∧
    txs s' !! Nonce res
    = Some {| start := now w; nonce := Nonce res;
              tx_version := VersionInfo res |} ∧
    ∀ k, k ≠ Nonce res → txs s' !! k = txs s !! k.
Proof.
  cbn zeta.
  assert (txs_keyed (Stream validate Stream_init events).1.1) as Hkeyed.
  { apply Stream_keyed. unfold txs_keyed. apply map_Forall_empty. }
  split; [done|]. split; [by apply keyed_nonces_distinct|].
  intros m w s' res Hsend.
  destruct (sendUpdate_cases m w (Stream validate Stream_init events).1.1)
    as [Hno | (res' & names & Hbuild & Hpush)].
  - rewrite Hno in Hsend. simplify_eq.
  - rewrite Hpush in Hsend. simplify_eq.
    destruct (BuildDiscoveryResponse_fields _ _ _ _ _ _ Hbuild) as (Hv & _ & Hn).
    split; [by rewrite Hn, Hv|]. simpl. split.
    + apply lookup_insert_eq.
    + intros k Hk. by apply lookup_insert_ne.
Qed.

(** C3 (amended): once the node is known, the names of a request are
    compared with the latched slice element by element and in order: the
    same slice passes the check, any other one, a reordering of the same
    names included, ends the stream with FailedPrecondition. *)
Theorem subscription_compared_in_order m w s req :
  node s ≠ "" →
  (req_ResourceNames req = subscribed s →
     ∀ s' msg, Stream_step validate m w s (Request req)
               ≠ Returns s' (status_Error FailedPrecondition msg)) ∧
  (req_ResourceNames req ≠ subscribed s →
     Stream_step validate m w s (Request req)
     = Returns s (status_Error FailedPrecondition
                    "resource subscriptions changed unexpectedly")).
Proof.
  intros Hnode. simpl. destruct (decide (node s = "")) as [?|_]; [done|].
  unfold cmp_differ. split.
  - intros <-. rewrite bool_decide_eq_false_2 by (intros ?; done).
    intros s' msg.
    destruct (decide (req_TypeUrl req = Type_ m)); [|done].
    destruct (txs s !! req_ResponseNonce req).
    + by destruct (handleTx m s t req).
    + by destruct (sendUpdate validate m w s).
  - intros Hne. by rewrite bool_decide_eq_true_2.
Qed.

Lemma Stream_step_anonymous m w s e :
  node s = "" →
  (∀ req, e = Request req → req_NodeId req = "") →
  match Stream_step validate m w s e with
  | Continue s' _ => node s' = ""
  | Returns s' err =>
    node s' = "" ∧ ∀ msg, err ≠ status_Error FailedPrecondition msg
  end.
Proof.
  intros Hnode Hanon. destruct e as [| | | |req|u]; simpl; try done.
  - rewrite decide_True by done. simpl.
    unfold cmp_differ. rewrite bool_decide_eq_false_2 by (intros ?; done).
    destruct (decide (req_TypeUrl req = Type_ m)).
    + destruct (txs s !! req_ResponseNonce req); simpl; [by apply Hanon|].
      match goal with |- context [sendUpdate validate m w ?s1] =>
        pose proof (sendUpdate_frame m w s1) as [Hn _];
        destruct (sendUpdate validate m w s1) end.
      simpl in Hn. rewrite Hn. by apply Hanon.
    + split; [by apply Hanon | done].
  - destruct (_ || _); [|done].
    pose proof (sendUpdate_frame m w s) as [Hn _].
    destruct (sendUpdate validate m w s). simpl in Hn. congruence.
Qed.

(** C10: on a stream whose requests all carry an empty node id, every
    request latches its own names as the subscription, the node stays
    unknown, and the run never ends with FailedPrecondition, however the
    names change from one request to the next; a request ends the stream
    with FailedPrecondition only when a node id was latched before. *)
Theorem anonymous_stream_relatches events s :
  node s = "" →
  anonymous events →
  (node (Stream validate s events).1.1 = "" ∧
   ∀ msg, (Stream validate s events).2
          ≠ Some (status_Error FailedPrecondition msg)) ∧
  (∀ m w req, req_NodeId req = "" →
     match Stream_step validate m w s (Request req) with
     | Continue s' _ | Returns s' _ =>
       subscribed s' = req_ResourceNames req
     end) ∧
  (∀ m w s0 req s' msg,
     Stream_step validate m w s0 (Request req)
     = Returns s' (status_Error FailedPrecondition msg) →
     node s0 ≠ "").
Proof.
  intros Hnode Hanon. split; [|split].
  - revert s Hnode. induction Hanon as [|[[m w] e] events He _ IH];
      intros s Hnode; simpl; [done|].
    pose proof (Stream_step_anonymous m w s e Hnode He) as Hstep.
    destruct (Stream_step validate m w s e) as [s' out|s' err].
    + specialize (IH s' Hstep).
      by destruct (Stream validate s' events) as [[s'' out'] r].
    + simpl. destruct Hstep as [? Herr]. split; [done|].
      intros msg [= ->]. by eapply Herr.
  - intros m w req Hreq. simpl. rewrite decide_True by done. simpl.
    unfold cmp_differ. rewrite bool_decide_eq_false_2 by (intros ?; done).
    destruct (decide (req_TypeUrl req = Type_ m)); [|done].
    destruct (txs s !! req_ResponseNonce req); simpl; [done|].
    match goal with |- context [sendUpdate validate m w ?s1] =>
      pose proof (sendUpdate_frame m w s1) as [_ Hsub];
      destruct (sendUpdate validate m w s1) end.
    done.
  - intros m w s0 req s' msg Hstep Hnode0.
    pose proof (Stream_step_anonymous m w s0 (Request req) Hnode0) as Hanon0.
    simpl in Hstep. rewrite decide_True in Hstep by done. simpl in Hstep.
    unfold cmp_differ in Hstep.
    rewrite bool_decide_eq_false_2 in Hstep by (intros ?; done).
    destruct (decide (req_TypeUrl req = Type_ m)); [|done].
    destruct (txs s0 !! req_ResponseNonce req); simpl in Hstep; [done|].
    by destruct (sendUpdate validate m w _).
Qed.

End StreamProperties.

(** ** The stream loop on sample runs *)

(** C3 (counterexample): the client latches ["a"; "b"] and then sends the
    same two names in the other order; the stream ends with
    FailedPrecondition. *)
Lemma reordered_subscription_rejected :
  let s1 := (Stream Sample.no_rules Stream_init [SampleRun.hello]).1.1 in
  node s1 = "n1" ∧
  subscribed s1 = Some ["a"; "b"] ∧
  ["b"; "a"] ≡ₚ ["a"; "b"] ∧
  (Stream Sample.no_rules Stream_init
     [SampleRun.hello; SampleRun.reordered]).2
  = Some (status_Error FailedPrecondition
            "resource subscriptions changed unexpectedly").
Proof.
  cbn zeta. split; [by vm_compute|]. split; [by vm_compute|].
  split; [apply Permutation_swap | by vm_compute].
Qed.

Lemma subscription_compared_in_order_witness :
  Stream_step Sample.no_rules Sample.cds Sample.dry SampleRun.latched
    (Request (Sample.request "n1" (Some ["b"; "a"]) ""))
  = Returns SampleRun.latched
      (status_Error FailedPrecondition
         "resource subscriptions changed unexpectedly").
Proof.
  apply (subscription_compared_in_order Sample.no_rules Sample.cds Sample.dry
           SampleRun.latched (Sample.request "n1" (Some ["b"; "a"]) "")).
  - discriminate.
  - discriminate.
Defined.

(** C4 (counterexample): two requests without nonce while the random source
    is failing. The first push leaves a live transaction under
    [nonce-v0-xxxxxxxx]; the second push carries that same nonce. *)
Lemma second_push_reuses_live_nonce :
  let s1 := (Stream Sample.no_rules Stream_init [SampleRun.wildcard]).1.1 in
  "nonce-v0-xxxxxxxx" ∈ live_nonces s1 ∧
  ∃ s2 res,
    Stream_step Sample.no_rules Sample.cds Sample.dry s1
      (Request (Sample.request "n1" None ""))
    = Continue s2 [Pushed res] ∧
    Nonce res = "nonce-v0-xxxxxxxx".
Proof.
  cbn zeta. split.
  - vm_compute. left.
  - eexists _, _. split; [by vm_compute | reflexivity].
Qed.

Lemma live_nonces_distinct_witness :
  NoDup (live_nonces
           (Stream Sample.no_rules Stream_init [SampleRun.wildcard]).1.1) ∧
  ∃ s' res,
    sendUpdate Sample.no_rules Sample.cds Sample.dry
      (Stream Sample.no_rules Stream_init [SampleRun.wildcard]).1.1
    = (s', [Pushed res]) ∧
    Nonce res
    = nonce_format (versionString Sample.cds)
                   (randomString (random Sample.dry)).
Proof.
  split.
  - apply (live_nonces_distinct Sample.no_rules [SampleRun.wildcard]).
  - eexists _, _.
    assert (∀ (A B : Prop), A → (A → B) → A ∧ B) as Hcut by tauto.
    apply Hcut; [by vm_compute|].
    apply (live_nonces_distinct Sample.no_rules [SampleRun.wildcard]).
Defined.

Lemma anonymous_stream_relatches_witness :
  node (Stream Sample.no_rules Stream_init SampleRun.nameless).1.1 = "" ∧
  ∀ msg, (Stream Sample.no_rules Stream_init SampleRun.nameless).2
         ≠ Some (status_Error FailedPrecondition msg).
Proof.
  apply (anonymous_stream_relatches Sample.no_rules SampleRun.nameless
           Stream_init).
  - reflexivity.
  - repeat constructor; intros req [= <-]; reflexivity.
Defined.

(** ** Add on a whole batch *)

Lemma Add_loop_valid good : ∀ rest store changed names,
  resourceNames good = Return names →
  Forall (λ r, Validate r = None) good →
  Add_loop (good ++ rest) store changed
  = Add_loop rest (foldl (λ acc r, <[name_key r := r]> acc) store good)
             (changed ++ names).
Proof.
  induction good as [|r good IH]; intros rest store changed names Hns Hvalid.
  - simpl in Hns. simplify_eq. simpl. by rewrite app_nil_r.
  - apply resourceNames_cons in Hns as (n & ns' & -> & Hn & Hrs).
    apply Forall_cons in Hvalid as [Hv Hvalid]. simpl.
    rewrite Hn, Hv, (name_key_Return _ _ Hn), (IH _ _ _ _ Hrs Hvalid).
    by rewrite <- app_assoc.
Qed.

(** [Add] stops at the first resource that does not validate: what came
    before it in the batch is stored, the version and the sessions are as
    they were and nothing is published. *)
Lemma Add_stops_at_first_invalid ctx good bad rest m names n err :
  resourceNames good = Return names →
  Forall (λ r, Validate r = None) good →
  resourceName bad = Return n →
  Validate bad = Some err →
  Add ctx (good ++ bad :: rest) m
  = {| st := set_resources
               (foldl (λ acc r, <[name_key r := r]> acc) (resources m) good) m;
       published := None;
       ret := Return (Some (fmt_Errorf "%q: %w" [n] err)) |}.
Proof.
  intros Hns Hvalid Hn Hv. unfold Add.
  rewrite (Add_loop_valid good _ _ _ names Hns Hvalid). simpl.
  by rewrite Hn, Hv.
Qed.

(** Only when the very first resource is the invalid one is the manager
    left as it was. *)
Lemma Add_first_invalid ctx bad rest m n err :
  resourceName bad = Return n →
  Validate bad = Some err →
  st (Add ctx (bad :: rest) m) = m.
Proof.
  intros Hn Hv.
  change (bad :: rest) with ([] ++ bad :: rest).
  rewrite (Add_stops_at_first_invalid ctx [] bad rest m [] n err); try done.
  by destruct m.
Qed.

(** A batch that validates is stored, later resources over earlier ones of
    the same name, and its names are published. *)
Lemma Add_valid ctx rs m names :
  resourceNames rs = Return names →
  Forall (λ r, Validate r = None) rs →
  rs ≠ [] →
  let e := Add ctx rs m in
  ret e = Return None ∧
  resources (st e)
  = foldl (λ acc r, <[name_key r := r]> acc) (resources m) rs ∧
  version (st e) = wrap_int (version m + 1) ∧
  published e = Some {| u_ctx := ctx; u_resources := list_to_set names |}.
Proof.
  intros Hns Hvalid Hne. cbn zeta. unfold Add.
  replace (Add_loop rs (resources m) [])
    with (Add_loop (rs ++ []) (resources m) []) by (by rewrite app_nil_r).
  rewrite (Add_loop_valid rs [] _ _ names Hns Hvalid).
  cbn [Add_loop app st published ret].
  assert (names ≠ []) as Hnames.
  { destruct rs as [|r rs]; [done|].
    apply resourceNames_cons in Hns as (? & ? & -> & _). done. }
  destruct (notify_changed ctx names
              (set_resources (foldl (λ acc r, <[name_key r := r]> acc)
                                    (resources m) rs) m) Hnames)
    as (Hu & Hver & Hres & _).
  done.
Qed.

(** ** A cold start

    A wildcard client connects after [Add([a, b])], gets both resources at
    version [v1] and acknowledges them; the observer is told and the
    transaction is retired. *)
Lemma cold_start_scenario :
  let run :=
    Stream Sample.no_rules Stream_init
      [(Scenario.served, Scenario.lucky,
        Request (Sample.request "n1" None ""));
       (Scenario.served, Scenario.lucky,
        Request (Scenario.ack "nonce-v1-abvabvab" "v1"))] in
  run.1.2
  = [Pushed {| VersionInfo := "v1";
               TypeUrl := "type.googleapis.com/envoy.api.v2.Cluster";
               Resources :=
                 [{| any_TypeUrl := "type.googleapis.com/envoy.api.v2.Cluster";
                     any_Value := "one" |};
                  {| any_TypeUrl := "type.googleapis.com/envoy.api.v2.Cluster";
                     any_Value := "three" |}];
               Nonce := "nonce-v1-abvabvab" |};
     OnAckCalled {| Node := "n1"; Version := "v1"; Ack := true |}] ∧
  run.2 = None ∧
  live_nonces run.1.1 = [].
Proof. cbn zeta. split; [by vm_compute|]. split; by vm_compute. Qed.

(** * Further properties of the manager *)

(** ** What notify leaves alone *)

Lemma notify_frame ctx names m :
  let r := notify ctx names m in
  resources (n_manager r) = resources m ∧
  Name (n_manager r) = Name m ∧
  VersionPrefix (n_manager r) = VersionPrefix m ∧
  Type_ (n_manager r) = Type_ m ∧
  OnAck (n_manager r) = OnAck m ∧
  dom (sessions (n_manager r)) = dom (sessions m).
Proof.
  cbn zeta. destruct names as [|n names]; [done|].
  destruct (notify_changed ctx (n :: names) m) as (_ & _ & Hres & Hdom & _);
    [done|].
  split; [done|]. unfold notify.
  destruct (send_blocked _ _ _ _ _) as [ss2 err] eqn:Hsb.
  repeat split. unfold notify in Hdom. by rewrite Hsb in Hdom.
Qed.

Lemma notify_version ctx names m :
  let r := notify ctx names m in
  (n_update r = None → n_manager r = m) ∧
  (is_Some (n_update r) → version (n_manager r) = wrap_int (version m + 1)).
Proof.
  cbn zeta. destruct names as [|n names].
  - split; [done|]. by intros [? ?].
  - destruct (notify_changed ctx (n :: names) m) as (Hu & Hv & _); [done|].
    split; [|done]. by rewrite Hu.
Qed.

(** ** The loops, on any batch *)

Lemma Add_loop_keyed rs : ∀ store changed,
  map_Forall (λ k r, resourceName r = Return k) store →
  map_Forall (λ k r, resourceName r = Return k) (Add_loop rs store changed).1.1.
Proof.
  induction rs as [|r rs IH]; intros store changed Hstore; simpl; [done|].
  destruct (resourceName r) as [n|msg] eqn:Hn; [|done].
  destruct (Validate r); [done|].
  apply IH. by apply map_Forall_insert_2.
Qed.

Lemma Replace_loop_keyed rs : ∀ old store changed,
  map_Forall (λ k r, resourceName r = Return k) store →
  map_Forall (λ k r, resourceName r = Return k)
             (Replace_loop rs old store changed).1.1.2.
Proof.
  induction rs as [|r rs IH]; intros old store changed Hstore; simpl; [done|].
  destruct (resourceName r) as [n|msg] eqn:Hn; [|done].
  apply IH. by apply map_Forall_insert_2.
Qed.

Lemma Add_st ctx rs m :
  resources (st (Add ctx rs m)) = (Add_loop rs (resources m) []).1.1.
Proof.
  unfold Add.
  destruct (Add_loop rs (resources m) []) as [[store changed] [early|]]; [done|].
  simpl. by destruct (notify_frame ctx changed (set_resources store m)) as [-> _].
Qed.

Lemma Replace_st ctx rs m :
  resources (st (Replace ctx rs m)) = resources m ∨
  resources (st (Replace ctx rs m))
  = (Replace_loop rs (resources m) ∅ []).1.1.2.
Proof.
  unfold Replace. destruct (Replace_validate rs); [by left|]. right.
  destruct (Replace_loop rs (resources m) ∅ [])
    as [[[old store] changed] [msg|]]; [done|].
  simpl.
  by destruct (notify_frame ctx (changed ++ (map_to_list old).*1)
                 (set_resources store m)) as [-> _].
Qed.

Lemma Delete_st ctx n m :
  resources (Delete ctx n m).1 = delete n (resources m).
Proof.
  unfold Delete. destruct (resources m !! n) as [r|] eqn:Hn; cbn [fst].
  - by destruct (notify_frame ctx [n]
                   (set_resources (delete n (resources m)) m)) as [-> _].
  - by rewrite delete_id.
Qed.

(** X1: a new manager has a store in which every entry sits under the name
    of its resource, and [Add], [Replace] and [Delete] keep it so on every
    input, also when they stop on an error or a panic. *)
Theorem mutations_keep_store_keyed ctx rs n m :
  (∀ name prefix proto, store_keyed (NewManager name prefix proto)) ∧
  (store_keyed m →
   store_keyed (st (Add ctx rs m)) ∧
   store_keyed (st (Replace ctx rs m)) ∧
   store_keyed (Delete ctx n m).1).
Proof.
  unfold store_keyed. split; [intros; apply map_Forall_empty|].
  intros Hm. split; [|split].
  - rewrite Add_st. by apply Add_loop_keyed.
  - destruct (Replace_st ctx rs m) as [-> | ->]; [done|].
    apply Replace_loop_keyed, map_Forall_empty.
  - rewrite Delete_st. by apply map_Forall_delete.
Qed.

Lemma mutations_keep_store_keyed_witness :
  store_keyed (st (Add Sample.background [Sample.a; Sample.unnamed]
                       Sample.cds)) ∧
  store_keyed (st (Replace Sample.background [Sample.a; Sample.unnamed]
                           Sample.cds)) ∧
  store_keyed (Delete Sample.background "a" Sample.cds).1.
Proof.
  apply (mutations_keep_store_keyed Sample.background
           [Sample.a; Sample.unnamed] "a" Sample.cds).
  apply map_Forall_empty.
Defined.

(** ** ListKeys and List *)

Lemma string_compare_le_trans a : ∀ b c,
  String.compare a b ≠ Gt → String.compare b c ≠ Gt →
  String.compare a c ≠ Gt.
Proof.
  induction a as [|x a IH]; intros [|y b] [|z c]; simpl; try done.
  unfold Ascii.compare.
  destruct (N.compare_spec (N_of_ascii x) (N_of_ascii y)),
           (N.compare_spec (N_of_ascii y) (N_of_ascii z)),
           (N.compare_spec (N_of_ascii x) (N_of_ascii z));
    try done; try lia; eauto.
Qed.

Lemma string_le_compare a b : string_le a b ↔ String.compare a b ≠ Gt.
Proof.
  unfold string_le, String.leb. destruct (String.compare a b); split; done.
Qed.

#[global] Instance string_le_trans : Transitive string_le.
Proof.
  intros a b c. rewrite !string_le_compare. apply string_compare_le_trans.
Qed.

#[global] Instance string_le_antisym : AntiSymm (=) string_le.
Proof. intros a b. apply String.leb_antisym. Qed.

#[global] Instance string_le_total : Total string_le.
Proof. intros a b. apply String.leb_total. Qed.

Lemma resourceNames_keyed (l : list (string * Resource)) :
  Forall (λ kr, resourceName kr.2 = Return kr.1) l →
  resourceNames l.*2 = Return l.*1.
Proof.
  induction 1 as [|[k r] l Hkr _ IH]; [done|].
  rewrite !fmap_cons. cbn [resourceNames fst snd] in *. by rewrite Hkr, IH.
Qed.

Lemma store_keyed_entries m :
  store_keyed m →
  Forall (λ kr, resourceName kr.2 = Return kr.1) (map_to_list (resources m)).
Proof.
  intros Hm. apply Forall_forall. intros [k r] Hin.
  apply elem_of_map_to_list in Hin. by apply Hm in Hin.
Qed.

Lemma name_key_values m :
  store_keyed m →
  name_key <$> (map_to_list (resources m)).*2 = (map_to_list (resources m)).*1.
Proof.
  intros Hm. rewrite <- list_fmap_compose. apply list_fmap_ext.
  intros i [k r] Hkr%list_elem_of_lookup_2%elem_of_map_to_list.
  simpl. apply name_key_Return. by apply Hm in Hkr.
Qed.

Lemma ListKeys_keyed m :
  store_keyed m →
  ∃ ks, ListKeys m = Return ks ∧
        Sorted string_le ks ∧
        ks ≡ₚ (map_to_list (resources m)).*1.
Proof.
  intros Hm. unfold ListKeys.
  rewrite (resourceNames_keyed _ (store_keyed_entries m Hm)).
  eexists. split; [done|]. split.
  - apply (Sorted_merge_sort string_le).
  - apply merge_sort_Permutation.
Qed.

(** X2: on a store whose entries sit under their resources' names, ListKeys
    does not panic and returns the names in the store, each once, in
    ascending order. *)
Theorem ListKeys_sorted_keys m :
  store_keyed m →
  ∃ ks, ListKeys m = Return ks ∧
        Sorted string_le ks ∧
        NoDup ks ∧
        ∀ k, k ∈ ks ↔ is_Some (resources m !! k).
Proof.
  intros Hm. destruct (ListKeys_keyed m Hm) as (ks & Hks & Hsorted & Hperm).
  exists ks. split; [done|]. split; [done|]. split.
  - rewrite Hperm. apply NoDup_fst_map_to_list.
  - intros k. rewrite Hperm, list_elem_of_fmap. split.
    + intros [[k' r] [-> Hin]]. apply elem_of_map_to_list in Hin. eauto.
    + intros [r Hr]. exists (k, r). split; [done|].
      by apply elem_of_map_to_list.
Qed.

Lemma ListKeys_sorted_keys_witness :
  ∃ ks, ListKeys (st (Add Sample.background [Sample.b; Sample.a] Sample.cds))
        = Return ks ∧
        Sorted string_le ks ∧
        NoDup ks ∧
        ∀ k, k ∈ ks ↔
             is_Some (resources (st (Add Sample.background [Sample.b; Sample.a]
                                         Sample.cds)) !! k).
Proof.
  apply (ListKeys_sorted_keys
           (st (Add Sample.background [Sample.b; Sample.a] Sample.cds))).
  unfold store_keyed. rewrite Add_st.
  apply Add_loop_keyed, map_Forall_empty.
Defined.

(** X3: on such a store List does not panic, returns every stored resource
    once, each being the one stored under its name, and in the order of
    ListKeys: the names of the resources List returns are the list ListKeys
    returns. *)
Theorem List_follows_ListKeys m :
  store_keyed m →
  ∃ l ks, List m = Return l ∧ ListKeys m = Return ks ∧
          name_key <$> l = ks ∧
          l ≡ₚ (map_to_list (resources m)).*2 ∧
          ∀ r, r ∈ l → resources m !! name_key r = Some r.
Proof.
  intros Hm.
  destruct (ListKeys_keyed m Hm) as (ks & Hks & Hsorted & Hperm).
  assert (∃ l, List m = Return l ∧ l ≡ₚ (map_to_list (resources m)).*2 ∧
               Sorted by_name l) as (l & Hl & Hlperm & Hlsorted).
  { apply (List_of_values m _ (map_to_list (resources m)).*1); [|done].
    apply resourceNames_keyed, store_keyed_entries, Hm. }
  exists l, ks. split; [done|]. split; [done|]. split; [|split; [done|]].
  - apply (Sorted_unique string_le); [| done |].
    + eapply Sorted_fmap; [|exact Hlsorted].
      intros r1 r2 H. exact H.
    + rewrite Hlperm, (name_key_values m Hm). by rewrite Hperm.
  - intros r Hr. rewrite Hlperm in Hr.
    apply list_elem_of_fmap in Hr as [[k r'] [-> Hin]].
    apply elem_of_map_to_list in Hin. simpl.
    pose proof (Hm _ _ Hin) as Hname. simpl in Hname.
    by rewrite (name_key_Return _ _ Hname).
Qed.

Lemma List_follows_ListKeys_witness :
  ∃ l ks,
    List (st (Add Sample.background [Sample.b; Sample.a] Sample.cds))
    = Return l ∧
    ListKeys (st (Add Sample.background [Sample.b; Sample.a] Sample.cds))
    = Return ks ∧
    name_key <$> l = ks ∧
    l ≡ₚ (map_to_list
            (resources (st (Add Sample.background [Sample.b; Sample.a]
                                Sample.cds)))).*2 ∧
    ∀ r, r ∈ l →
         resources (st (Add Sample.background [Sample.b; Sample.a] Sample.cds))
           !! name_key r = Some r.
Proof.
  apply (List_follows_ListKeys
           (st (Add Sample.background [Sample.b; Sample.a] Sample.cds))).
  unfold store_keyed. rewrite Add_st.
  apply Add_loop_keyed, map_Forall_empty.
Defined.

(** ** Version, sessions and configuration under mutation *)

(** X4: [Add], [Replace] and [Delete] bump the version counter exactly when
    they publish an update: with no update the counter is as before, with an
    update it is the old counter plus one (in Go's [int]). *)
Theorem version_bumps_with_update ctx rs n m :
  (published (Add ctx rs m) = None →
     version (st (Add ctx rs m)) = version m) ∧
  (is_Some (published (Add ctx rs m)) →
     version (st (Add ctx rs m)) = wrap_int (version m + 1)) ∧
  (published (Replace ctx rs m) = None →
     version (st (Replace ctx rs m)) = version m) ∧
  (is_Some (published (Replace ctx rs m)) →
     version (st (Replace ctx rs m)) = wrap_int (version m + 1)) ∧
  ((Delete ctx n m).2 = None → version (Delete ctx n m).1 = version m) ∧
  (is_Some (Delete ctx n m).2 →
     version (Delete ctx n m).1 = wrap_int (version m + 1)).
Proof.
  assert (∀ names store,
    let r := notify ctx names (set_resources store m) in
    (n_update r = None → version (n_manager r) = version m) ∧
    (is_Some (n_update r) → version (n_manager r) = wrap_int (version m + 1)))
    as Hnotify.
  { intros names store.
    destruct (notify_version ctx names (set_resources store m)) as [Hnone Hsome].
    split; [|done]. intros Hu. by rewrite (Hnone Hu). }
  split; [|split; [|split; [|split; [|split]]]].
  - unfold Add.
    destruct (Add_loop rs (resources m) []) as [[store changed] [early|]];
      [done|]. apply Hnotify.
  - unfold Add.
    destruct (Add_loop rs (resources m) []) as [[store changed] [early|]];
      [by intros [? ?]|]. apply Hnotify.
  - unfold Replace. destruct (Replace_validate rs); [done|].
    destruct (Replace_loop rs (resources m) ∅ [])
      as [[[old store] changed] [msg|]]; [done|]. apply Hnotify.
  - unfold Replace. destruct (Replace_validate rs); [by intros [? ?]|].
    destruct (Replace_loop rs (resources m) ∅ [])
      as [[[old store] changed] [msg|]]; [by intros [? ?]|]. apply Hnotify.
  - unfold Delete. destruct (resources m !! n); [|done]. apply Hnotify.
  - unfold Delete. destruct (resources m !! n); [|by intros [? ?]].
    apply Hnotify.
Qed.

Lemma version_bumps_with_update_witness :
  version (st (Add Sample.background [Sample.invalid "b"] Sample.cds))
  = version Sample.cds ∧
  version (Delete Sample.background "a"
             (st (Add Sample.background [Sample.a] Sample.cds))).1
  = wrap_int (version (st (Add Sample.background [Sample.a] Sample.cds)) + 1).
Proof.
  split.
  - apply (version_bumps_with_update Sample.background
             [Sample.invalid "b"] "a" Sample.cds).
    reflexivity.
  - apply (version_bumps_with_update Sample.background [] "a"
             (st (Add Sample.background [Sample.a] Sample.cds))).
    vm_compute. eauto.
Defined.

(** X5: no mutation registers or drops a session or touches the manager's
    configuration: after [Add], [Replace] and [Delete] the same session
    channels are registered and the name, the version prefix, the type URL
    and the acknowledgement observer are as before. *)
Theorem mutations_keep_sessions_and_config ctx rs n m m' :
  m' = st (Add ctx rs m) ∨ m' = st (Replace ctx rs m) ∨
  m' = (Delete ctx n m).1 →
  dom (sessions m') = dom (sessions m) ∧
  Name m' = Name m ∧ VersionPrefix m' = VersionPrefix m ∧
  Type_ m' = Type_ m ∧ OnAck m' = OnAck m.
Proof.
  assert (∀ names store,
    let r := n_manager (notify ctx names (set_resources store m)) in
    dom (sessions r) = dom (sessions m) ∧
    Name r = Name m ∧ VersionPrefix r = VersionPrefix m ∧
    Type_ r = Type_ m ∧ OnAck r = OnAck m) as Hnotify.
  { intros names store.
    destruct (notify_frame ctx names (set_resources store m))
      as (_ & ? & ? & ? & ? & ?). done. }
  intros [-> | [-> | ->]].
  - unfold Add.
    destruct (Add_loop rs (resources m) []) as [[store changed] [early|]];
      [done|]. apply Hnotify.
  - unfold Replace. destruct (Replace_validate rs); [done|].
    destruct (Replace_loop rs (resources m) ∅ [])
      as [[[old store] changed] [msg|]]; [done|]. apply Hnotify.
  - unfold Delete. destruct (resources m !! n); [|done]. apply Hnotify.
Qed.

Lemma mutations_keep_sessions_and_config_witness :
  dom (sessions (st (Add Sample.background [Sample.a] Sample.cds)))
  = dom (sessions Sample.cds) ∧
  Name (st (Add Sample.background [Sample.a] Sample.cds)) = Name Sample.cds ∧
  VersionPrefix (st (Add Sample.background [Sample.a] Sample.cds))
  = VersionPrefix Sample.cds ∧
  Type_ (st (Add Sample.background [Sample.a] Sample.cds))
  = Type_ Sample.cds ∧
  OnAck (st (Add Sample.background [Sample.a] Sample.cds))
  = OnAck Sample.cds.
Proof.
  apply (mutations_keep_sessions_and_config Sample.background [Sample.a] "a"
           Sample.cds).
  by left.
Defined.

(** ** Add and Replace on whole batches *)

(** X6: [Add] on a batch of resources that can be named. An empty batch
    changes nothing and publishes nothing. A non-empty batch that validates
    is stored, a later resource over an earlier one of the same name, the
    version is bumped once, one update with the names of the batch is
    published, and the error of [notify] is dropped: [Add] returns nil
    whatever the context does. When a resource does not validate, [Add]
    returns its error wrapped with its name, publishes nothing and leaves
    version and sessions alone. *)
Theorem Add_batch_outcome ctx good m names :
  resourceNames good = Return names →
  Forall (λ r, Validate r = None) good →
  Add ctx [] m = {| st := m; published := None; ret := Return None |} ∧
  (good ≠ [] →
     ret (Add ctx good m) = Return None ∧
     resources (st (Add ctx good m))
     = foldl (λ acc r, <[name_key r := r]> acc) (resources m) good ∧
     version (st (Add ctx good m)) = wrap_int (version m + 1) ∧
     published (Add ctx good m)
     = Some {| u_ctx := ctx; u_resources := list_to_set names |}) ∧
  (∀ bad rest n err,
     resourceName bad = Return n →
     Validate bad = Some err →
     let e := Add ctx (good ++ bad :: rest) m in
     ret e = Return (Some (fmt_Errorf "%q: %w" [n] err)) ∧
     published e = None ∧
     version (st e) = version m ∧
     sessions (st e) = sessions m).
Proof.
  intros Hns Hvalid. split; [|split].
  - unfold Add. simpl. by destruct m.
  - intros Hne. by apply Add_valid.
  - intros bad rest n err Hn Hv. cbn zeta.
    by rewrite (Add_stops_at_first_invalid ctx good bad rest m names n err).
Qed.

Lemma Add_batch_outcome_witness :
  published (Add Sample.background [Sample.a; Sample.b] Sample.cds)
  = Some {| u_ctx := Sample.background;
            u_resources := list_to_set ["a"; "b"] |} ∧
  version (st (Add Sample.background
                 ([Sample.a; Sample.b] ++ Sample.invalid "c" :: [])
                 Sample.cds))
  = version Sample.cds.
Proof.
  split.
  - apply (Add_batch_outcome Sample.background [Sample.a; Sample.b]
             Sample.cds ["a"; "b"]); [reflexivity | by repeat constructor | done].
  - destruct (Add_batch_outcome Sample.background [Sample.a; Sample.b]
                Sample.cds ["a"; "b"] eq_refl ltac:(by repeat constructor))
      as (_ & _ & Hbad).
    apply (Hbad (Sample.invalid "c") [] "c" (errors_New "invalid Cluster.Name"));
      reflexivity.
Defined.

Lemma Replace_loop_app good : ∀ rest ns old store changed,
  resourceNames good = Return ns →
  Replace_loop (good ++ rest) old store changed
  = Replace_loop rest (foldl (λ o n, delete n o) old ns)
      (foldl (λ acc r, <[name_key r := r]> acc) store good) (changed ++ ns).
Proof.
  induction good as [|r good IH]; intros rest ns old store changed Hns.
  - simpl in Hns. simplify_eq. simpl. by rewrite app_nil_r.
  - apply resourceNames_cons in Hns as (n & ns' & -> & Hn & Hrs). simpl.
    rewrite Hn, (name_key_Return _ _ Hn), (IH _ _ _ _ _ Hrs).
    by rewrite <- app_assoc.
Qed.

(** X7: a resource that cannot be named makes both mutations panic in the
    middle of their loop. [Add] has then stored the resources that came
    before it. [Replace], when the whole batch validates, has already swapped
    the store: the old entries are gone and only the resources that came
    before it are in the store. Neither publishes an update nor bumps the
    version. *)
Theorem unnameable_resource_panics ctx good bad rest m names msg :
  resourceNames good = Return names →
  Forall (λ r, Validate r = None) good →
  resourceName bad = Panic msg →
  Add ctx (good ++ bad :: rest) m
  = {| st := set_resources
               (foldl (λ acc r, <[name_key r := r]> acc) (resources m) good) m;
       published := None; ret := Panic msg |} ∧
  (Validate bad = None → Forall (λ r, Validate r = None) rest →
   Replace ctx (good ++ bad :: rest) m
   = {| st := set_resources
                (foldl (λ acc r, <[name_key r := r]> acc) ∅ good) m;
        published := None; ret := Panic msg |}).
Proof.
  intros Hns Hvalid Hbad. split.
  - unfold Add. rewrite (Add_loop_valid good _ _ _ names Hns Hvalid). simpl.
    by rewrite Hbad.
  - intros Hv Hrest. unfold Replace.
    rewrite Replace_validate_valid.
    + rewrite (Replace_loop_app good _ names _ _ _ Hns). simpl.
      by rewrite Hbad.
    + apply Forall_app. split; [done|]. by constructor.
Qed.

Lemma unnameable_resource_panics_witness :
  Add Sample.background ([Sample.a] ++ Sample.unnamed :: []) Sample.cds
  = {| st := set_resources
               (foldl (λ acc r, <[name_key r := r]> acc)
                      (resources Sample.cds) [Sample.a]) Sample.cds;
       published := None; ret := Panic "unable to name resource" |} ∧
  Replace Sample.background ([Sample.a] ++ Sample.unnamed :: []) Sample.cds
  = {| st := set_resources
               (foldl (λ acc r, <[name_key r := r]> acc) ∅ [Sample.a])
               Sample.cds;
       published := None; ret := Panic "unable to name resource" |}.
Proof.
  destruct (unnameable_resource_panics Sample.background [Sample.a]
              Sample.unnamed [] Sample.cds ["a"] "unable to name resource"
              eq_refl ltac:(by repeat constructor) eq_refl) as [Hadd Hrep].
  split; [exact Hadd|]. apply Hrep; [reflexivity | constructor].
Defined.

(** ** Delete *)

Lemma Delete_present ctx n m r :
  resources m !! n = Some r →
  (Delete ctx n m).2 = Some {| u_ctx := ctx; u_resources := {[n]} |} ∧
  version (Delete ctx n m).1 = wrap_int (version m + 1).
Proof.
  intros Hr. unfold Delete. rewrite Hr. cbn [fst snd].
  destruct (notify_changed ctx [n] (set_resources (delete n (resources m)) m))
    as (Hu & Hver & _); [done|].
  split; [|done]. rewrite Hu. do 2 f_equal. apply union_empty_r_L.
Qed.

(** X8: adding a valid resource under a name the store does not have and
    then deleting that name gives back the resource map; each of the two
    steps publishes an update for that name alone and bumps the version. *)
Theorem Add_then_Delete ctx1 ctx2 r n m :
  resourceName r = Return n →
  Validate r = None →
  resources m !! n = None →
  let added := Add ctx1 [r] m in
  let deleted := Delete ctx2 n (st added) in
  resources deleted.1 = resources m ∧
  published added = Some {| u_ctx := ctx1; u_resources := {[n]} |} ∧
  deleted.2 = Some {| u_ctx := ctx2; u_resources := {[n]} |} ∧
  version deleted.1 = wrap_int (wrap_int (version m + 1) + 1).
Proof.
  intros Hn Hv Hfresh. cbn zeta.
  destruct (Add_one ctx1 r n m Hn Hv) as (_ & Hres & Hver & Hpub).
  assert (resources (st (Add ctx1 [r] m)) !! n = Some r) as Hin
    by (rewrite Hres; apply lookup_insert_eq).
  destruct (Delete_present ctx2 n _ r Hin) as [Hu Hver2].
  repeat split; try done.
  - rewrite Delete_st, Hres. by apply delete_insert_id.
  - by rewrite Hver2, Hver.
Qed.

Lemma Add_then_Delete_witness :
  resources (Delete Sample.background "a"
               (st (Add Sample.background [Sample.a] Sample.cds))).1
  = resources Sample.cds.
Proof.
  apply (Add_then_Delete Sample.background Sample.background Sample.a "a"
           Sample.cds); reflexivity.
Defined.

(** X9: deleting a name a second time is a no-op: the manager the first
    [Delete] left is returned as it is and nothing is published. *)
Theorem Delete_twice ctx1 ctx2 n m :
  Delete ctx2 n (Delete ctx1 n m).1 = ((Delete ctx1 n m).1, None).
Proof.
  assert (resources (Delete ctx1 n m).1 !! n = None) as Hgone
    by (rewrite Delete_st; apply lookup_delete_eq).
  unfold Delete at 1. by rewrite Hgone.
Qed.

(** ** Replace with an empty batch *)

Lemma keys_nil (m : gmap string Resource) :
  (map_to_list m).*1 = [] ↔ m = ∅.
Proof.
  split.
  - intros H. apply map_to_list_empty_iff. by apply fmap_nil_inv in H.
  - intros ->. by rewrite map_to_list_empty.
Qed.

(** X10: [Replace] with an empty batch empties the store. On a store that
    was already empty it changes nothing and publishes nothing; otherwise it
    publishes one update that lists every name the store had and bumps the
    version. *)
Theorem Replace_empty_batch ctx m :
  ret (Replace ctx [] m) = Return None ∧
  resources (st (Replace ctx [] m)) = ∅ ∧
  (resources m = ∅ →
     st (Replace ctx [] m) = m ∧ published (Replace ctx [] m) = None) ∧
  (resources m ≠ ∅ →
     published (Replace ctx [] m)
     = Some {| u_ctx := ctx; u_resources := dom (resources m) |} ∧
     version (st (Replace ctx [] m)) = wrap_int (version m + 1)).
Proof.
  unfold Replace. cbn [Replace_validate Replace_loop app st published ret].
  split; [done|]. split; [|split].
  - by destruct (notify_frame ctx (map_to_list (resources m)).*1
                   (set_resources ∅ m)) as [-> _].
  - intros Hempty. rewrite Hempty, map_to_list_empty. simpl.
    split; [|done]. destruct m. simpl in *. by subst.
  - intros Hne.
    destruct (notify_changed ctx (map_to_list (resources m)).*1
                (set_resources ∅ m)) as (Hu & Hver & _).
    { by rewrite keys_nil. }
    split; [|done]. by rewrite Hu, keys_to_set.
Qed.

Lemma Replace_empty_batch_witness :
  published (Replace Sample.background []
               (st (Add Sample.background [Sample.a] Sample.cds)))
  = Some {| u_ctx := Sample.background;
            u_resources :=
              dom (resources (st (Add Sample.background [Sample.a]
                                      Sample.cds))) |} ∧
  st (Replace Sample.background [] Sample.cds) = Sample.cds.
Proof.
  split.
  - apply (Replace_empty_batch Sample.background
             (st (Add Sample.background [Sample.a] Sample.cds))).
    intros Hempty.
    assert (resources (st (Add Sample.background [Sample.a] Sample.cds))
              !! "a" = None) as Ha by (by rewrite Hempty).
    vm_compute in Ha. discriminate.
  - apply (Replace_empty_batch Sample.background Sample.cds). reflexivity.
Defined.

(** ** The wildcard snapshot *)

Lemma snapshot_all_loop_ok entries : ∀ result names result' names',
  snapshot_all_loop entries result names = inr (result', names') →
  ∃ more,
    result' = result ++ more ∧
    names' = names ++ entries.*1 ∧
    Forall2 (λ kr a, MarshalAny kr.2 = inr a) entries more.
Proof.
  induction entries as [|[k r] entries IH];
    intros result names result' names' Hrun; simpl in Hrun.
  - exists []. simplify_eq. by rewrite !app_nil_r.
  - destruct (MarshalAny r) as [err|a] eqn:Ha; [done|].
    destruct (IH _ _ _ _ Hrun) as (more & -> & -> & Hall).
    exists (a :: more). rewrite <- !app_assoc. repeat split; try done.
    by constructor.
Qed.

Lemma snapshot_all_loop_err entries : ∀ result names err,
  snapshot_all_loop entries result names = inl err →
  ∃ n r e, (n, r) ∈ entries ∧ MarshalAny r = inl e ∧
           err = fmt_Errorf "marshal resource %s to any: %w" [n] e.
Proof.
  induction entries as [|[k r] entries IH]; intros result names err Hrun;
    simpl in Hrun; [done|].
  destruct (MarshalAny r) as [e|a] eqn:Ha.
  - exists k, r, e. simplify_eq. repeat split; try done. left.
  - destruct (IH _ _ _ Hrun) as (n' & r' & e' & Hin & ?).
    exists n', r', e'. split; [by right | done].
Qed.

Lemma Forall2_with_l {A B} (P : A → B → Prop) (Q : A → Prop) l k :
  Forall2 P l k → Forall Q l → Forall2 (λ x y, Q x ∧ P x y) l k.
Proof.
  induction 1 as [|x y l k Hxy _ IH]; intros HQ; [constructor|].
  apply Forall_cons in HQ as [Hx HQ]. constructor; auto.
Qed.

(** X11: with an empty [want], [snapshot] returns every resource of the
    store: each name of the store once, each with its own resource wrapped in
    an [Any], and the current version string. It fails only when a stored
    resource cannot be marshalled, with that resource's name in the error;
    on an empty store it returns an empty list. *)
Theorem snapshot_wildcard m :
  match snapshot m [] with
  | inr (result, names, v) =>
    NoDup names ∧
    (∀ k, k ∈ names ↔ is_Some (resources m !! k)) ∧
    Forall2 (λ n a, ∃ r, resources m !! n = Some r ∧ MarshalAny r = inr a)
            names result ∧
    v = versionString m
  | inl err =>
    ∃ n r e, resources m !! n = Some r ∧ MarshalAny r = inl e ∧
             err = fmt_Errorf "marshal resource %s to any: %w" [n] e
  end ∧
  (resources m = ∅ → snapshot m [] = inr ([], [], versionString m)).
Proof.
  unfold snapshot, snapshotAll. split.
  - destruct (snapshot_all_loop (map_to_list (resources m)) [] [])
      as [err|[result names]] eqn:Hrun.
    + apply snapshot_all_loop_err in Hrun as (n & r & e & Hin & He & ->).
      apply elem_of_map_to_list in Hin. eauto 10.
    + apply snapshot_all_loop_ok in Hrun as (more & -> & -> & Hall).
      simpl. split; [apply NoDup_fst_map_to_list|]. split; [|split; [|done]].
      * intros k. rewrite list_elem_of_fmap. split.
        -- intros [[k' r] [-> Hin]]. apply elem_of_map_to_list in Hin. eauto.
        -- intros [r Hr]. exists (k, r). split; [done|].
           by apply elem_of_map_to_list.
      * apply Forall2_fmap_l.
        eapply Forall2_impl;
          [apply (Forall2_with_l _ (λ kr, resources m !! kr.1 = Some kr.2)
                    _ _ Hall)|].
        -- apply Forall_forall. intros [k r] Hin.
           apply elem_of_map_to_list in Hin. exact Hin.
        -- intros [k r] a [Hin Ha]. simpl in *. eauto.
  - intros ->. by rewrite map_to_list_empty.
Qed.

Lemma snapshot_wildcard_witness :
  snapshot Sample.cds [] = inr ([], [], versionString Sample.cds).
Proof. apply (snapshot_wildcard Sample.cds). reflexivity. Defined.

(** ** notify and the sessions *)

Lemma send_blocked_never_done ctx u blocked : ∀ i ss,
  ctx_patience ctx = None →
  (send_blocked ctx u i blocked ss).2 = None ∧
  ∀ s, s ∈ blocked → (send_blocked ctx u i blocked ss).1 !! s = Some (Some u).
Proof.
  intros i ss Hnever. revert i ss.
  induction blocked as [|b blocked IH]; intros i ss; simpl.
  - split; [done|]. intros s Hs. by apply elem_of_nil in Hs.
  - rewrite Hnever. destruct (IH (S i) (<[b:=Some u]> ss)) as [Herr Hall].
    split; [done|]. intros s Hs.
    destruct (decide (s ∈ blocked)) as [Hin|Hnotin]; [by apply Hall|].
    apply elem_of_cons in Hs as [-> | Hs]; [|done].
    destruct (send_blocked ctx u (S i) blocked (<[b:=Some u]> ss))
      as [ss' err] eqn:Hsb.
    destruct (send_blocked_lookup _ _ _ _ _ _ _ b Hsb) as [Heq | [Hin _]];
      [|done].
    simpl. by rewrite Heq, lookup_insert_eq.
Qed.


(** X12: with a context that is never done, [notify] with at least one name
    waits for every busy session: when it returns, it returns nil and has
    sent the new update to every registered session, the sessions that were
    busy included. *)
Theorem notify_reaches_every_session ctx names m :
  ctx_patience ctx = None →
  names ≠ [] →
  let r := notify ctx names m in
  n_err r = None ∧
  ∀ s, s ∈ dom (sessions m) →
       sessions (n_manager r) !! s
       = Some (Some {| u_ctx := ctx; u_resources := list_to_set names |}).
Proof.
  intros Hnever Hne. cbn zeta.
  destruct (notify_changed ctx names m Hne) as (_ & _ & _ & _ & Hidle & _).
  destruct names as [|n names]; [done|]. unfold notify in *.
  set (u := {| u_ctx := ctx; u_resources := list_to_set (n :: names) |}) in *.
  set (m1 := set_version (wrap_int (version m + 1)) m) in *.
  destruct (send_blocked_never_done ctx u (blocked_sessions (sessions m1)) 0
              (try_send u <$> sessions m1) Hnever) as [Herr Hall].
  destruct (send_blocked ctx u 0 (blocked_sessions (sessions m1))
              (try_send u <$> sessions m1)) as [ss2 err] eqn:Hsb.
  simpl in *. split; [done|].
  intros s Hs. apply elem_of_dom in Hs as [[old|] Hs].
  - apply Hall, blocked_sessions_spec. eauto.
  - by apply Hidle.
Qed.

Lemma notify_reaches_every_session_witness :
  sessions SampleNonce.busy !! 7%nat
  = Some (Some {| u_ctx := Sample.background;
                  u_resources := list_to_set ["b"] |}) ∧
  n_err (notify Sample.background ["a"] SampleNonce.busy) = None ∧
  ∀ s, s ∈ dom (sessions SampleNonce.busy) →
       sessions (n_manager (notify Sample.background ["a"] SampleNonce.busy))
         !! s
       = Some (Some {| u_ctx := Sample.background;
                       u_resources := list_to_set ["a"] |}).
Proof.
  split; [by vm_compute|].
  apply (notify_reaches_every_session Sample.background ["a"]
           SampleNonce.busy).
  - reflexivity.
  - discriminate.
Defined.



Lemma mutations_dom_sessions ctx rs n m :
  dom (sessions (st (Add ctx rs m))) = dom (sessions m) ∧
  dom (sessions (st (Replace ctx rs m))) = dom (sessions m) ∧
  dom (sessions (Delete ctx n m).1) = dom (sessions m).
Proof.
  assert (∀ names store,
    dom (sessions (n_manager (notify ctx names (set_resources store m))))
    = dom (sessions m)) as Hnotify.
  { intros names store.
    by destruct (notify_frame ctx names (set_resources store m))
      as (_ & _ & _ & _ & _ & ->). }
  split; [|split].
  - unfold Add.
    destruct (Add_loop rs (resources m) []) as [[store changed] [early|]];
      [done|]. apply Hnotify.
  - unfold Replace. destruct (Replace_validate rs); [done|].
    destruct (Replace_loop rs (resources m) ∅ [])
      as [[[old store] changed] [msg|]]; [done|]. apply Hnotify.
  - unfold Delete. destruct (resources m !! n); [|done]. apply Hnotify.
Qed.

(** X14: a stream's session channel: [Stream] registers it with an empty
    buffer, so the next [notify] with at least one name puts its update
    there without blocking, whatever the context; the mutations keep it
    registered; and the cleanup at the end of [Stream] takes it out again,
    giving back the manager when nothing else happened in between. *)
Theorem session_registered_until_cleanup rCh m ctx names :
  sessions m !! rCh = None →
  Stream_cleanup rCh (Stream_register rCh m) = m ∧
  (names ≠ [] →
   sessions (n_manager (notify ctx names (Stream_register rCh m))) !! rCh
   = Some (Some {| u_ctx := ctx; u_resources := list_to_set names |})) ∧
  (∀ rs n, rCh ∈ dom (sessions (st (Add ctx rs (Stream_register rCh m)))) ∧
           rCh ∈ dom (sessions (st (Replace ctx rs (Stream_register rCh m)))) ∧
           rCh ∈ dom (sessions (Delete ctx n (Stream_register rCh m)).1)).
Proof.
  intros Hfresh. split; [|split].
  - unfold Stream_cleanup, Stream_register, set_sessions. simpl.
    rewrite delete_insert_id by done. by destruct m.
  - intros Hne.
    destruct (notify_changed ctx names (Stream_register rCh m) Hne)
      as (_ & _ & _ & _ & Hidle & _).
    apply Hidle. simpl. apply lookup_insert_eq.
  - assert (rCh ∈ dom (sessions (Stream_register rCh m))) as Hin.
    { simpl. rewrite dom_insert_L. apply elem_of_union_l, elem_of_singleton.
      done. }
    intros rs n.
    destruct (mutations_dom_sessions ctx rs n (Stream_register rCh m))
      as (-> & -> & ->).
    done.
Qed.

Lemma session_registered_until_cleanup_witness :
  Stream_cleanup 7%nat (Stream_register 7%nat Sample.cds) = Sample.cds ∧
  sessions (n_manager (notify Sample.background ["a"]
                         (Stream_register 7%nat Sample.cds))) !! 7%nat
  = Some (Some {| u_ctx := Sample.background;
                  u_resources := list_to_set ["a"] |}).
Proof.
  destruct (session_registered_until_cleanup 7%nat Sample.cds Sample.background
              ["a"] eq_refl) as (Hclean & Hnotify & _).
  split; [exact Hclean|]. apply Hnotify. discriminate.
Defined.

(** ** Version strings and nonces *)

Lemma string_length_app s t :
  String.length (s +:+ t) = (String.length s + String.length t)%nat.
Proof.
  induction s as [|c s IH]; [done|].
  change (String c s +:+ t) with (String c (s +:+ t)). simpl. by rewrite IH.
Qed.

(** Two concatenations with tails of one length agree piece by piece. *)
Lemma string_app_inj_tail s1 : ∀ s2 t1 t2,
  String.length t1 = String.length t2 →
  s1 +:+ t1 = s2 +:+ t2 → s1 = s2 ∧ t1 = t2.
Proof.
  induction s1 as [|c1 s1 IH]; intros [|c2 s2] t1 t2 Hlen Heq.
  - done.
  - change ("" +:+ t1) with t1 in Heq. subst t1.
    change (String c2 s2 +:+ t2) with (String c2 (s2 +:+ t2)) in Hlen.
    simpl in Hlen. rewrite string_length_app in Hlen. lia.
  - change ("" +:+ t2) with t2 in Heq. subst t2.
    change (String c1 s1 +:+ t1) with (String c1 (s1 +:+ t1)) in Hlen.
    simpl in Hlen. rewrite string_length_app in Hlen. lia.
  - change (String c1 (s1 +:+ t1) = String c2 (s2 +:+ t2)) in Heq.
    injection Heq as -> Heq. destruct (IH _ _ _ Hlen Heq) as [-> ->]. done.
Qed.

Lemma nonce_format_inj v1 v2 h1 h2 :
  String.length h1 = String.length h2 →
  nonce_format v1 h1 = nonce_format v2 h2 → v1 = v2 ∧ h1 = h2.
Proof.
  unfold nonce_format. intros Hlen Heq.
  apply (inj (String.app "nonce-")) in Heq.
  apply string_app_inj_tail in Heq as [-> Heq].
  - by apply (inj (String.app "-")) in Heq.
  - change ("-" +:+ h1) with (String "-" h1).
    change ("-" +:+ h2) with (String "-" h2). simpl. by rewrite Hlen.
Qed.

Lemma versionString_inj m1 m2 :
  VersionPrefix m1 = VersionPrefix m2 →
  versionString m1 = versionString m2 → version m1 = version m2.
Proof.
  unfold versionString. intros -> Heq.
  apply (inj (String.app _)) in Heq. by apply (inj pretty) in Heq.
Qed.

Section ResponseProperties.

Variable validate : DiscoveryResponse → option error.

(** X15: the nonce of a response tells the version it was built at: two
    responses of managers with one version prefix that carry the same nonce
    were built at the same version counter, with the same version string and
    the same random suffix. Responses built at different counters never share
    a nonce. *)
Theorem nonce_determines_version m1 m2 d1 d2 want1 want2 res1 res2 ns1 ns2 :
  VersionPrefix m1 = VersionPrefix m2 →
  BuildDiscoveryResponse validate m1 d1 want1 = inr (res1, ns1) →
  BuildDiscoveryResponse validate m2 d2 want2 = inr (res2, ns2) →
  Nonce res1 = Nonce res2 →
  version m1 = version m2 ∧
  VersionInfo res1 = VersionInfo res2 ∧
  randomString d1 = randomString d2.
Proof.
  intros Hprefix H1 H2 Hnonce.
  destruct (BuildDiscoveryResponse_fields _ _ _ _ _ _ H1) as (Hv1 & _ & Hn1).
  destruct (BuildDiscoveryResponse_fields _ _ _ _ _ _ H2) as (Hv2 & _ & Hn2).
  rewrite Hn1, Hn2 in Hnonce.
  apply nonce_format_inj in Hnonce as [Hv Hh];
    [|by rewrite !randomString_length].
  split; [|done]. apply versionString_inj; [done|].
  unfold versionString. by rewrite <- Hv1, <- Hv2.
Qed.

(** X16: when the random source fills the eight-byte buffer, or fails
    without writing a byte, a response that is built carries the manager's
    type URL, the version string (prefix, then counter in decimal) and the
    nonce [nonce-<version>-<suffix>] whose suffix is eight lower-case
    letters. *)
Theorem response_nonce_letters m d want res names :
  (8 ≤ length d)%nat ∨ d = [] →
  BuildDiscoveryResponse validate m d want = inr (res, names) →
  TypeUrl res = Type_ m ∧
  VersionInfo res = VersionPrefix m +:+ pretty (version m) ∧
  ∃ suffix,
    Nonce res = nonce_format (VersionInfo res) suffix ∧
    String.length suffix = 8%nat ∧
    lowercase suffix.
Proof.
  intros Hd Hbuild.
  destruct (BuildDiscoveryResponse_fields _ _ _ _ _ _ Hbuild) as (Hv & Ht & Hn).
  split; [done|]. split; [done|].
  exists (randomString d). split; [done|]. split.
  - apply randomString_length.
  - by apply randomString_lowercase.
Qed.

End ResponseProperties.

Lemma nonce_determines_version_witness :
  (version Sample.cds = version SampleNonce.eds ∧
   VersionInfo SampleTurn.res0 = VersionInfo SampleNonce.res_eds ∧
   randomString [] = randomString SampleNonce.all_x) ∧
  Nonce SampleTurn.res0 ≠ Nonce SampleNonce.res_v1.
Proof.
  split.
  - apply (nonce_determines_version Sample.no_rules
             Sample.cds SampleNonce.eds [] SampleNonce.all_x [] ["backend"]
             SampleTurn.res0 SampleNonce.res_eds [] []); reflexivity.
  - intros Hnonce.
    destruct (nonce_determines_version Sample.no_rules
                Sample.cds SampleNonce.cds_v1 [] SampleNonce.all_x [] []
                SampleTurn.res0 SampleNonce.res_v1 [] ["a"]
                eq_refl eq_refl eq_refl Hnonce) as (Hversion & _).
    vm_compute in Hversion. discriminate.
Defined.

Lemma response_nonce_letters_witness :
  ∃ suffix,
    Nonce {| VersionInfo := "v0"; TypeUrl := Type_ Sample.cds;
             Resources := []; Nonce := "nonce-v0-xxxxxxxx" |}
    = nonce_format "v0" suffix ∧
    String.length suffix = 8%nat ∧
    lowercase suffix.
Proof.
  apply (response_nonce_letters Sample.no_rules Sample.cds [] []
           {| VersionInfo := "v0"; TypeUrl := Type_ Sample.cds;
              Resources := []; Nonce := "nonce-v0-xxxxxxxx" |} []).
  - by right.
  - reflexivity.
Defined.

(** * Further properties of the stream loop *)

Section StreamTurns.

Variable validate : DiscoveryResponse → option error.

(** A request that passes the subscription check and names the manager's
    type is an acknowledgement when its nonce is live and a reason to push
    otherwise. *)
Lemma Stream_step_request m w s req :
  node s = "" ∨ req_ResourceNames req = subscribed s →
  req_TypeUrl req = Type_ m →
  Stream_step validate m w s (Request req) =
    match txs s !! req_ResponseNonce req with
    | Some t =>
      Continue (handleTx m (latch s req) t req).1
               (handleTx m (latch s req) t req).2
    | None =>
      Continue (sendUpdate validate m w (latch s req)).1
               (sendUpdate validate m w (latch s req)).2
    end.
Proof.
  intros Hcheck Htype. simpl. fold (latch s req).
  assert (cmp_differ (subscribed (latch s req)) (req_ResourceNames req) = false)
    as ->.
  { unfold cmp_differ, latch. apply bool_decide_eq_false_2. intros Hne.
    apply Hne. destruct (decide (node s = "")); [done|].
    by destruct Hcheck. }
  rewrite decide_True by done.
  assert (txs (latch s req) = txs s) as ->
    by (unfold latch; by destruct (decide _)).
  destruct (txs s !! req_ResponseNonce req).
  - by destruct (handleTx m (latch s req) t req).
  - by destruct (sendUpdate validate m w (latch s req)).
Qed.

(** X17: a request whose nonce is that of a live transaction is taken as
    the answer to that push: nothing is pushed, the observer (if there is
    one) is called once with the node id, the version the client reports and
    ack or nack by the absence of an error detail, and exactly that
    transaction is retired. *)
Theorem ack_retires_transaction m w s req t :
  txs_keyed s →
  node s = "" ∨ req_ResourceNames req = subscribed s →
  req_TypeUrl req = Type_ m →
  txs s !! req_ResponseNonce req = Some t →
  ∃ s',
    Stream_step validate m w s (Request req)
    = Continue s'
        (if OnAck m
         then [OnAckCalled {| Node := node s';
                              Version := req_VersionInfo req;
                              Ack := is_ack req |}]
         else []) ∧
    txs s' = delete (req_ResponseNonce req) (txs s) ∧
    (∀ k, k ≠ req_ResponseNonce req → txs s' !! k = txs s !! k) ∧
    node s' = node (latch s req) ∧
    subscribed s' = subscribed (latch s req).
Proof.
  intros Hkeyed Hcheck Htype Ht.
  rewrite (Stream_step_request m w s req Hcheck Htype), Ht.
  exists (handleTx m (latch s req) t req).1. split; [reflexivity|]. simpl.
  assert (txs (latch s req) = txs s) as ->
    by (unfold latch; by destruct (decide _)).
  rewrite (Hkeyed _ _ Ht). split; [done|]. split; [|done].
  intros k Hk. by apply lookup_delete_ne.
Qed.

(** X18: a request whose nonce is empty or not that of a live transaction
    makes the stream push the current snapshot: when the response can be
    built and the channel takes it in time, exactly that response is pushed
    and a transaction is recorded under its nonce with the current time and
    version; when the push times out or the response cannot be built, nothing
    is pushed and no transaction is recorded. The stream goes on in every
    case. *)
Theorem unknown_nonce_pushes m w s req :
  node s = "" ∨ req_ResourceNames req = subscribed s →
  req_TypeUrl req = Type_ m →
  txs s !! req_ResponseNonce req = None →
  match BuildDiscoveryResponse validate m (random w)
          (elems (req_ResourceNames req)) with
  | inr (res, _) =>
    if push_ok w then
      Stream_step validate m w s (Request req)
      = Continue {| node := node (latch s req);
                    subscribed := req_ResourceNames req;
                    txs := <[Nonce res := {| start := now w;
                                             nonce := Nonce res;
                                             tx_version := versionString m |}]>
                             (txs s) |}
                 [Pushed res]
    else Stream_step validate m w s (Request req) = Continue (latch s req) []
  | inl _ => Stream_step validate m w s (Request req) = Continue (latch s req) []
  end.
Proof.
  intros Hcheck Htype Hnone.
  pose proof (Stream_step_request m w s req Hcheck Htype) as Hstep.
  rewrite Hnone in Hstep.
  assert (subscribed (latch s req) = req_ResourceNames req) as Hsub.
  { unfold latch. destruct (decide (node s = "")); [done|].
    by destruct Hcheck. }
  assert (txs (latch s req) = txs s) as Htxs
    by (unfold latch; by destruct (decide _)).
  unfold sendUpdate in Hstep. rewrite Hsub in Hstep.
  destruct (BuildDiscoveryResponse validate m (random w)
              (elems (req_ResourceNames req))) as [err|[res names]] eqn:Hbuild;
    [done|].
  destruct (push_ok w); [|done]. cbn [fst snd] in Hstep.
  destruct (BuildDiscoveryResponse_fields _ _ _ _ _ _ Hbuild) as (Hv & _).
  rewrite Hstep, Htxs. unfold versionString. by rewrite Hv.
Qed.

(** X19: a request that passes the subscription check but names another type
    URL than the manager's ends the stream with InvalidArgument; nothing is
    pushed and no transaction is touched. *)
Theorem wrong_type_ends_stream m w s req :
  node s = "" ∨ req_ResourceNames req = subscribed s →
  req_TypeUrl req ≠ Type_ m →
  Stream_step validate m w s (Request req)
  = Returns (latch s req)
      (status_Error InvalidArgument "wrong resource type requested") ∧
  txs (latch s req) = txs s.
Proof.
  intros Hcheck Htype. simpl. fold (latch s req).
  assert (cmp_differ (subscribed (latch s req)) (req_ResourceNames req) = false)
    as ->.
  { unfold cmp_differ, latch. apply bool_decide_eq_false_2. intros Hne.
    apply Hne. destruct (decide (node s = "")); [done|].
    by destruct Hcheck. }
  rewrite decide_False by done. split; [done|].
  unfold latch. by destruct (decide _).
Qed.

(** X20: a change notification is ignored by a stream that subscribed to
    names none of which changed: no push, no change of state. A stream with
    a wildcard subscription (no names), or with a subscribed name among the
    changed ones, runs [sendUpdate]. *)
Theorem notification_filtered_by_subscription m w s u :
  (elems (subscribed s) ≠ [] →
   (∀ n, n ∈ elems (subscribed s) → n ∉ u_resources u) →
   Stream_step validate m w s (Notification u) = Continue s []) ∧
  (elems (subscribed s) = [] ∨
   (∃ n, n ∈ elems (subscribed s) ∧ n ∈ u_resources u) →
   Stream_step validate m w s (Notification u)
   = Continue (sendUpdate validate m w s).1 (sendUpdate validate m w s).2).
Proof.
  split.
  - intros Hne Hnone. simpl.
    rewrite bool_decide_eq_false_2
      by (by destruct (elems (subscribed s))).
    assert (existsb (λ name, bool_decide (name ∈ u_resources u))
                    (elems (subscribed s)) = false) as ->; [|done].
    apply not_true_is_false. intros Hex.
    apply existsb_exists in Hex as (n & Hin & Hn).
    apply bool_decide_eq_true_1 in Hn.
    by apply (Hnone n); [apply list_elem_of_In|].
  - intros Hsend. simpl.
    assert (bool_decide (length (elems (subscribed s)) = 0%nat)
            || existsb (λ name, bool_decide (name ∈ u_resources u))
                       (elems (subscribed s)) = true) as ->.
    { destruct Hsend as [-> | (n & Hin & Hn)]; [done|].
      apply orb_true_iff. right. apply existsb_exists. exists n.
      split; [by apply list_elem_of_In | by apply bool_decide_eq_true_2]. }
    by destruct (sendUpdate validate m w s).
Qed.

(** X21: the cleanup tick retires exactly the transactions that started more
    than a minute before the tick; it pushes nothing and leaves node and
    subscription alone. *)
Theorem cleanup_retires_stale m w s :
  ∃ s',
    Stream_step validate m w s CleanupTick = Continue s' [] ∧
    node s' = node s ∧ subscribed s' = subscribed s ∧
    ∀ k t, txs s' !! k = Some t ↔
           txs s !! k = Some t ∧ now w - start t ≤ Minute.
Proof.
  eexists. split; [reflexivity|]. simpl. split; [done|]. split; [done|].
  intros k t. rewrite map_lookup_filter_Some. simpl.
  unfold stale, Since, int_min, int_max, Minute.
  rewrite bool_decide_eq_false. split; intros [Hk Ht]; (split; [done|]); lia.
Qed.

Lemma Stream_step_latched m w s e :
  node s ≠ "" →
  match Stream_step validate m w s e with
  | Continue s' _ | Returns s' _ =>
    node s' = node s ∧ subscribed s' = subscribed s
  end.
Proof.
  intros Hnode. destruct e as [| | | |req|u]; simpl; try done.
  - rewrite decide_False by done.
    destruct (cmp_differ _ _); [done|].
    destruct (decide (req_TypeUrl req = Type_ m)); [|done].
    destruct (txs s !! req_ResponseNonce req); simpl; [done|].
    pose proof (sendUpdate_frame validate m w s) as Hframe.
    by destruct (sendUpdate validate m w s).
  - destruct (_ || _); [|done].
    pose proof (sendUpdate_frame validate m w s) as Hframe.
    by destruct (sendUpdate validate m w s).
Qed.

(** X22: once a non-empty node id is latched, the node id and the
    subscription of a stream never change again, whatever events follow. *)
Theorem subscription_latched_for_good events : ∀ s,
  node s ≠ "" →
  node (Stream validate s events).1.1 = node s ∧
  subscribed (Stream validate s events).1.1 = subscribed s.
Proof.
  induction events as [|[[m w] e] events IH]; intros s Hnode; simpl; [done|].
  pose proof (Stream_step_latched m w s e Hnode) as Hstep.
  destruct (Stream_step validate m w s e) as [s' out|s' err]; [|done].
  destruct Hstep as [Hn Hs].
  destruct (IH s') as [Hn' Hs']; [congruence|].
  destruct (Stream validate s' events) as [[s'' out'] r]. simpl in *.
  split; congruence.
Qed.

(** X23: a turn of the loop pushes at most one response, and that response
    is built from the manager as it is at that turn: it carries the current
    version string and the manager's type URL, and its transaction is
    recorded under its nonce with the time of the turn. A turn that pushes
    nothing records no transaction. *)
Theorem turn_pushes_current_state m w s e s' out :
  Stream_step validate m w s e = Continue s' out →
  (∀ res, Pushed res ∈ out →
     out = [Pushed res] ∧
     VersionInfo res = versionString m ∧
     TypeUrl res = Type_ m ∧
     txs s' !! Nonce res
     = Some {| start := now w; nonce := Nonce res;
               tx_version := versionString m |}) ∧
  ((∀ res, Pushed res ∉ out) → txs s' ⊆ txs s).
Proof.
  assert (∀ s0 s1 out1, sendUpdate validate m w s0 = (s1, out1) →
    (∀ res, Pushed res ∈ out1 →
       out1 = [Pushed res] ∧ VersionInfo res = versionString m ∧
       TypeUrl res = Type_ m ∧
       txs s1 !! Nonce res
       = Some {| start := now w; nonce := Nonce res;
                 tx_version := versionString m |}) ∧
    ((∀ res, Pushed res ∉ out1) → txs s1 ⊆ txs s0)) as Hsend.
  { intros s0 s1 out1 Hrun.
    destruct (sendUpdate_cases validate m w s0)
      as [Hno | (res' & names & Hbuild & Hpush)].
    - rewrite Hno in Hrun. simplify_eq. split; [|done].
      intros res Hin. by apply elem_of_nil in Hin.
    - rewrite Hpush in Hrun. simplify_eq.
      destruct (BuildDiscoveryResponse_fields _ _ _ _ _ _ Hbuild)
        as (Hv & Ht & _).
      split.
      + intros res Hin. apply list_elem_of_singleton in Hin. simplify_eq.
        simpl. rewrite lookup_insert_eq. unfold versionString.
        by rewrite Hv.
      + intros Hnone. exfalso. apply (Hnone res'). left. }
  destruct e as [| | | |req|u]; simpl; try done.
  - intros [= <- <-]. split.
    + intros res Hin. by apply elem_of_nil in Hin.
    + intros _. simpl. apply map_filter_subseteq.
  - fold (latch s req). destruct (cmp_differ _ _); [done|].
    destruct (decide (req_TypeUrl req = Type_ m)); [|done].
    assert (txs (latch s req) = txs s) as Htxs
      by (unfold latch; by destruct (decide _)).
    destruct (txs (latch s req) !! req_ResponseNonce req) as [t|].
    + simpl. intros [= <- <-]. split.
      * intros res Hin. destruct (OnAck m).
        -- apply list_elem_of_singleton in Hin. done.
        -- by apply elem_of_nil in Hin.
      * intros _. simpl. rewrite Htxs. apply delete_subseteq.
    + destruct (sendUpdate validate m w (latch s req)) as [s1 out1] eqn:Hrun.
      intros [= <- <-]. rewrite <- Htxs. by apply Hsend.
  - destruct (_ || _).
    + destruct (sendUpdate validate m w s) as [s1 out1] eqn:Hrun.
      intros [= <- <-]. by apply Hsend.
    + intros [= <- <-]. split; [|done].
      intros res Hin. by apply elem_of_nil in Hin.
Qed.

(** X24: a push followed by its acknowledgement leaves the transaction map
    as it was before the push: the request that carries the nonce of the
    response just pushed retires the transaction that push recorded and no
    other, and pushes nothing. *)
Theorem push_then_ack m1 w1 m2 w2 s req res s1 ack :
  Stream_step validate m1 w1 s (Request req) = Continue s1 [Pushed res] →
  txs s !! Nonce res = None →
  node s1 = "" ∨ req_ResourceNames ack = subscribed s1 →
  req_TypeUrl ack = Type_ m2 →
  req_ResponseNonce ack = Nonce res →
  ∃ s2 out,
    Stream_step validate m2 w2 s1 (Request ack) = Continue s2 out ∧
    txs s2 = txs s ∧
    (∀ r, Pushed r ∉ out).
Proof.
  intros Hpush Hfresh Hcheck Htype Hnonce.
  assert (txs s1 = <[Nonce res := {| start := now w1; nonce := Nonce res;
                                     tx_version := VersionInfo res |}]> (txs s))
    as Htxs1.
  { simpl in Hpush. fold (latch s req) in Hpush.
    destruct (cmp_differ _ _); [done|].
    destruct (decide (req_TypeUrl req = Type_ m1)); [|done].
    assert (txs (latch s req) = txs s) as Htxs
      by (unfold latch; by destruct (decide _)).
    destruct (txs (latch s req) !! req_ResponseNonce req) as [t|].
    - simpl in Hpush. destruct (OnAck m1); simplify_eq.
    - destruct (sendUpdate_cases validate m1 w1 (latch s req))
        as [Hno | (res' & names & _ & Hsend)].
      + rewrite Hno in Hpush. simplify_eq.
      + rewrite Hsend in Hpush. simplify_eq. simpl. by rewrite Htxs. }
  rewrite (Stream_step_request m2 w2 s1 ack Hcheck Htype).
  rewrite Hnonce, Htxs1, lookup_insert_eq. simpl.
  eexists _, _. split; [reflexivity|].
  assert (txs (latch s1 ack) = txs s1) as ->
    by (unfold latch; by destruct (decide _)).
  rewrite Htxs1. split; [by apply delete_insert_id|].
  intros r Hin. destruct (OnAck m2).
  - apply list_elem_of_singleton in Hin. done.
  - by apply elem_of_nil in Hin.
Qed.

End StreamTurns.

(** ** The stream loop on sample turns *)

Lemma ack_retires_transaction_witness :
  ∃ s',
    Stream_step Sample.no_rules Sample.cds Sample.dry SampleTurn.pushed
      (Request (Sample.request "n1" None "nonce-v0-xxxxxxxx"))
    = Continue s'
        (if OnAck Sample.cds
         then [OnAckCalled
                 {| Node := node s';
                    Version := req_VersionInfo
                                 (Sample.request "n1" None "nonce-v0-xxxxxxxx");
                    Ack := is_ack
                             (Sample.request "n1" None "nonce-v0-xxxxxxxx") |}]
         else []) ∧
    txs s' = delete "nonce-v0-xxxxxxxx" (txs SampleTurn.pushed).
Proof.
  destruct (ack_retires_transaction Sample.no_rules Sample.cds Sample.dry
              SampleTurn.pushed
              (Sample.request "n1" None "nonce-v0-xxxxxxxx") SampleTurn.tx0)
    as (s' & Hstep & Htxs & _).
  - apply map_Forall_singleton. reflexivity.
  - by right.
  - reflexivity.
  - apply lookup_singleton_eq.
  - exists s'. split; [exact Hstep | exact Htxs].
Defined.

Lemma unknown_nonce_pushes_witness :
  Stream_step Sample.no_rules Sample.cds Sample.dry Stream_init
    (Request (Sample.request "n1" None ""))
  = Continue SampleTurn.pushed [Pushed SampleTurn.res0].
Proof.
  pose proof (unknown_nonce_pushes Sample.no_rules Sample.cds Sample.dry
                Stream_init (Sample.request "n1" None "")
                (or_introl eq_refl) eq_refl eq_refl) as Hstep.
  exact Hstep.
Defined.

Lemma wrong_type_ends_stream_witness :
  Stream_step Sample.no_rules Sample.cds Sample.dry Stream_init
    (Request SampleTurn.listeners)
  = Returns (latch Stream_init SampleTurn.listeners)
      (status_Error InvalidArgument "wrong resource type requested") ∧
  txs (latch Stream_init SampleTurn.listeners) = txs Stream_init.
Proof.
  apply (wrong_type_ends_stream Sample.no_rules Sample.cds Sample.dry
           Stream_init SampleTurn.listeners).
  - by left.
  - intros Heq. vm_compute in Heq. discriminate.
Defined.

Lemma notification_filtered_by_subscription_witness :
  Stream_step Sample.no_rules Sample.cds Sample.dry SampleRun.latched
    (Notification (SampleTurn.changed {["c"]}))
  = Continue SampleRun.latched [] ∧
  Stream_step Sample.no_rules Sample.cds Sample.dry SampleRun.latched
    (Notification (SampleTurn.changed {["b"]}))
  = Continue
      (sendUpdate Sample.no_rules Sample.cds Sample.dry SampleRun.latched).1
      (sendUpdate Sample.no_rules Sample.cds Sample.dry SampleRun.latched).2.
Proof.
  split.
  - apply (notification_filtered_by_subscription Sample.no_rules Sample.cds
             Sample.dry SampleRun.latched (SampleTurn.changed {["c"]})).
    + discriminate.
    + intros n Hin Hn. simpl in Hn. apply elem_of_singleton in Hn. subst n.
      apply elem_of_cons in Hin as [? | Hin]; [discriminate|].
      apply list_elem_of_singleton in Hin. discriminate.
  - apply (notification_filtered_by_subscription Sample.no_rules Sample.cds
             Sample.dry SampleRun.latched (SampleTurn.changed {["b"]})).
    right. exists "b". split.
    + right. left.
    + simpl. by apply elem_of_singleton.
Defined.

Lemma subscription_latched_for_good_witness :
  node (Stream Sample.no_rules SampleRun.latched
          [SampleRun.wildcard; SampleRun.hello]).1.1
  = node SampleRun.latched ∧
  subscribed (Stream Sample.no_rules SampleRun.latched
                [SampleRun.wildcard; SampleRun.hello]).1.1
  = subscribed SampleRun.latched.
Proof.
  apply (subscription_latched_for_good Sample.no_rules
           [SampleRun.wildcard; SampleRun.hello] SampleRun.latched).
  discriminate.
Defined.

Lemma turn_pushes_current_state_witness :
  (∀ res, Pushed res ∈ [Pushed SampleTurn.res0] →
     [Pushed SampleTurn.res0] = [Pushed res] ∧
     VersionInfo res = versionString Sample.cds ∧
     TypeUrl res = Type_ Sample.cds ∧
     txs SampleTurn.pushed !! Nonce res
     = Some {| start := now Sample.dry; nonce := Nonce res;
               tx_version := versionString Sample.cds |}) ∧
  ((∀ res, Pushed res ∉ [Pushed SampleTurn.res0]) →
   txs SampleTurn.pushed ⊆ txs Stream_init).
Proof.
  apply (turn_pushes_current_state Sample.no_rules Sample.cds Sample.dry
           Stream_init (Request (Sample.request "n1" None ""))
           SampleTurn.pushed [Pushed SampleTurn.res0]).
  reflexivity.
Defined.

Lemma push_then_ack_witness :
  ∃ s2 out,
    Stream_step Sample.no_rules Sample.cds Sample.dry SampleTurn.pushed
      (Request (Sample.request "n1" None "nonce-v0-xxxxxxxx"))
    = Continue s2 out ∧
    txs s2 = txs Stream_init ∧
    (∀ r, Pushed r ∉ out).
Proof.
  apply (push_then_ack Sample.no_rules Sample.cds Sample.dry Sample.cds
           Sample.dry Stream_init (Sample.request "n1" None "")
           SampleTurn.res0 SampleTurn.pushed
           (Sample.request "n1" None "nonce-v0-xxxxxxxx")).
  - reflexivity.
  - reflexivity.
  - by right.
  - reflexivity.
  - reflexivity.
Defined.

(** ** How a stream ends *)

Section StreamEnds.

Variable validate : DiscoveryResponse → option error.

Lemma Stream_step_terminal m w s e s' err :
  Stream_step validate m w s e = Returns s' err →
  terminal err ∧ txs s' = txs s ∧
  (e = Draining ∨ (∃ c, e = CtxDone c) ∨ e = RequestsClosed ∨
   ∃ req, e = Request req).
Proof.
  unfold terminal. destruct e as [|c| | |req|u]; simpl.
  - intros [= <- <-]. naive_solver.
  - intros [= <- <-]. naive_solver.
  - done.
  - intros [= <- <-]. naive_solver.
  - fold (latch s req).
    assert (txs (latch s req) = txs s) as Htxs
      by (unfold latch; by destruct (decide _)).
    destruct (cmp_differ _ _); [intros [= <- <-]; naive_solver|].
    destruct (decide (req_TypeUrl req = Type_ m));
      [|intros [= <- <-]; naive_solver].
    destruct (txs (latch s req) !! req_ResponseNonce req).
    + by destruct (handleTx m (latch s req) t req).
    + by destruct (sendUpdate validate m w (latch s req)).
  - destruct (_ || _); [|done].
    by destruct (sendUpdate validate m w s).
Qed.

(** X25: a stream returns only for one of five reasons: the server drains,
    the context is done, the request channel is closed, the subscription
    changed (FailedPrecondition) or a request names the wrong type
    (InvalidArgument). A run of change notifications and cleanup ticks alone
    never returns, whether or not its responses can be built and pushed in
    time. *)
Theorem stream_returns_terminal_error events : ∀ s,
  (∀ err, (Stream validate s events).2 = Some err → terminal err) ∧
  (Forall (λ mwe, mwe.2 = CleanupTick ∨ ∃ u, mwe.2 = Notification u) events →
   (Stream validate s events).2 = None).
Proof.
  induction events as [|[[m w] e] events IH]; intros s; simpl.
  - split; [done|]. done.
  - destruct (Stream_step validate m w s e) as [s' out|s' err'] eqn:Hstep.
    + destruct (IH s') as [Herr Hquiet].
      destruct (Stream validate s' events) as [[s'' out'] r]. simpl in *.
      split; [done|]. intros Hall. apply Forall_cons in Hall as [_ Hall].
      by apply Hquiet.
    + apply Stream_step_terminal in Hstep as (Hterm & _ & Hev). simpl. split.
      * by intros err [= <-].
      * intros Hall. apply Forall_cons in Hall as [He _]. simpl in He.
        destruct He as [-> | [u ->]];
          destruct Hev as [? | [[? ?] | [? | [? ?]]]]; done.
Qed.

End StreamEnds.

Lemma stream_returns_terminal_error_witness :
  terminal (status_Error FailedPrecondition
              "resource subscriptions changed unexpectedly") ∧
  (Stream Sample.no_rules SampleRun.latched
     [(Sample.cds, Sample.dry, Notification (SampleTurn.changed {["a"]}));
      (Sample.cds, Sample.dry, CleanupTick)]).2 = None.
Proof.
  split.
  - apply (stream_returns_terminal_error Sample.no_rules
             [SampleRun.hello; SampleRun.reordered] Stream_init).
    reflexivity.
  - apply (stream_returns_terminal_error Sample.no_rules
             [(Sample.cds, Sample.dry, Notification (SampleTurn.changed {["a"]}));
              (Sample.cds, Sample.dry, CleanupTick)] SampleRun.latched).
    apply Forall_cons. split; [right; simpl; eauto|].
    apply Forall_cons. split; [by left | constructor].
Defined.
